(** * MatrixManifoldsInCeres: the Frobenius denoising cost functor

    A shallow embedding of [src/CeresMatrixManifolds.cpp]: the class
    [MatrixDenoising] (a [ceres::FirstOrderFunction]) and the driver
    [solveGradientProblem].

    The C++ code works on raw [double*] buffers and on Eigen matrices.  The
    embedding keeps both: memory is a finite map from addresses (counted in
    [double] cells) to scalars, an access to a cell that is not allocated is
    undefined behaviour and is modelled by [None], and the scalar arithmetic
    is an interface ([Scalar]), instantiated with IEEE 754 binary64, the
    [double] of the code (from [SpecFloat]). *)

From Stdlib Require Import ZArith List Bool Lia.
From Stdlib Require Import Floats.SpecFloat.
From stdpp Require Import base option list gmap.

Open Scope Z_scope.

(** ** Scalars *)

(** The operations of [double] that the functor and its properties use. *)
Class Scalar (F : Type) := {
  fzero : F;                 (* Scalar(0) *)
  fhalf : F;                 (* the literal 0.5 *)
  fadd : F -> F -> F;
  fsub : F -> F -> F;
  fmul : F -> F -> F;
  fsqrt : F -> F;
  fopp : F -> F;
  fabs : F -> F
}.

(** ** Integers of the code *)

(** [int] is 32 bits wide; a conversion from the 64-bit [Eigen::Index] keeps
    the low 32 bits, read in two's complement. *)
Definition INT_MAX : Z := 2147483647.

Definition to_int (z : Z) : Z := (z + 2^31) mod 2^32 - 2^31.

(** The null pointer. *)
Definition NULL : Z := 0.

(** ** Memory and Eigen *)

Section Denoising.
Context {F : Type} `{Scalar F}.

(** Modelled from the spec: Eigen's [MatrixXd] is not under src/.  A dense
    matrix of dimensions rows x cols; its coefficients are kept in one
    contiguous array, column after column. *)
Record MatrixXd := mkMatrix {
  rows : Z;
  cols : Z;
  coeffs : list F
}.

(** A matrix that lives in memory and is reached through a reference
    ([MatrixXd &A]): where its storage starts, and its dimensions. *)
Record MatrixRef := mkRef {
  ref_data : Z;
  ref_rows : Z;
  ref_cols : Z
}.

(** Number of coefficients of a [r] x [c] matrix. *)
Definition size_of (r c : Z) : nat := Z.to_nat (r * c).

(** Reading [n] consecutive cells from [p]; [None] when one of them is not
    allocated. *)
Fixpoint load_block (h : gmap Z F) (p : Z) (n : nat) : option (list F) :=
  match n with
  | O => Some []
  | S n' =>
      match h !! p with
      | Some x =>
          match load_block h (p + 1) n' with
          | Some xs => Some (x :: xs)
          | None => None
          end
      | None => None
      end
  end.

(** Writing one cell; [None] when it is not allocated. *)
Definition store (h : gmap Z F) (p : Z) (x : F) : option (gmap Z F) :=
  match h !! p with
  | Some _ => Some (<[p := x]> h)
  | None => None
  end.

(** Writing consecutive cells from [p]. *)
Fixpoint store_block (h : gmap Z F) (p : Z) (l : list F) : option (gmap Z F) :=
  match l with
  | [] => Some h
  | x :: l' =>
      match store h p x with
      | Some h' => store_block h' (p + 1) l'
      | None => None
      end
  end.

(** Modelled from the spec: Eigen's [Map] is not under src/.  The flat
    buffer at [p] read as a matrix of dimensions [r] x [c], here as the matrix
    value that a [const MatrixXd &] parameter receives from it. *)
Definition Map (h : gmap Z F) (p r c : Z) : option MatrixXd :=
  match load_block h p (size_of r c) with
  | Some l => Some (mkMatrix r c l)
  | None => None
  end.

(** The matrix behind a reference. *)
Definition deref (h : gmap Z F) (A : MatrixRef) : option MatrixXd :=
  Map h (ref_data A) (ref_rows A) (ref_cols A).

(** Modelled from the spec: Eigen's assignment is not under src/.
    [Grad = M] for a [Map<MatrixXd>] at [p] of dimensions [r] x [c] writes the
    coefficients of [M] into the buffer; a map cannot be resized, so the
    dimensions must agree. *)
Definition Map_assign (h : gmap Z F) (p r c : Z) (M : MatrixXd) : option (gmap Z F) :=
  if (rows M =? r) && (cols M =? c) && (length (coeffs M) =? size_of r c)%nat
  then store_block h p (coeffs M)
  else None.

(** Coefficient-wise combination of two coefficient arrays. *)
Fixpoint cwise (f : F -> F -> F) (l1 l2 : list F) : list F :=
  match l1, l2 with
  | x :: l1', y :: l2' => f x y :: cwise f l1' l2'
  | _, _ => []
  end.

(** Modelled from the spec: Eigen's [operator-] is not under src/.  [X - Y]
    is the difference entry by entry; the dimensions must agree (an assertion
    of Eigen). *)
Definition mat_sub (X Y : MatrixXd) : option MatrixXd :=
  if (rows X =? rows Y) && (cols X =? cols Y)
  then Some (mkMatrix (rows X) (cols X) (cwise fsub (coeffs X) (coeffs Y)))
  else None.

(** Modelled from the spec: Eigen's [sum()] is not under src/.  It is
    [Scalar(0)] for an empty matrix; otherwise the coefficients are added one
    after the other in storage order, the order of Eigen's plain traversal
    (a vectorized build groups the additions otherwise, which matters for
    rounding only). *)
Definition sum (l : list F) : F :=
  match l with
  | [] => fzero
  | x :: l' => fold_left fadd l' x
  end.

Definition abs2 (x : F) : F := fmul x x.

Definition squaredNorm (M : MatrixXd) : F := sum (map abs2 (coeffs M)).

(** Modelled from the spec: Eigen's [norm()] is not under src/.  The
    Frobenius norm, the square root of the sum of the squared entries. *)
Definition norm (M : MatrixXd) : F := fsqrt (squaredNorm M).

(** ** The functor [MatrixDenoising] *)

Record MatrixDenoising := mkDenoising { A : MatrixRef }.

Definition costFrobenius (this : MatrixDenoising) (h : gmap Z F) (X : MatrixXd)
  : option F :=
  match deref h (A this) with
  | Some a =>
      match mat_sub X a with
      | Some d => let cost := norm d in Some (fmul fhalf cost)
      | None => None
      end
  | None => None
  end.

Definition gradientFrobenius (this : MatrixDenoising) (h : gmap Z F) (X : MatrixXd)
  : option MatrixXd :=
  match deref h (A this) with
  | Some a => mat_sub X a
  | None => None
  end.

(** [Grad] is the map at [g] of dimensions [r] x [c]. *)
Definition costGradientFrobenius (this : MatrixDenoising) (h : gmap Z F)
    (X : MatrixXd) (g r c : Z) : option (F * gmap Z F) :=
  match gradientFrobenius this h X with
  | Some G =>
      match Map_assign h g r c G with
      | Some h' =>
          match Map h' g r c with
          | Some Grad => let cost := norm Grad in Some (fmul fhalf cost, h')
          | None => None
          end
      | None => None
      end
  | None => None
  end.

Definition Evaluate (this : MatrixDenoising) (h : gmap Z F)
    (parameters cost gradient : Z) : option (bool * gmap Z F) :=
  let r := ref_rows (A this) in
  let c := ref_cols (A this) in
  match Map h parameters r c with
  | Some P0 =>
      if gradient =? NULL then
        match costFrobenius this h P0 with
        | Some v =>
            match store h cost v with
            | Some h' => Some (true, h')
            | None => None
            end
        | None => None
        end
      else
        match costGradientFrobenius this h P0 gradient r c with
        | Some (v, h1) =>
            match store h1 cost v with
            | Some h' => Some (true, h')
            | None => None
            end
        | None => None
        end
  | None => None
  end.

Definition NumParameters (this : MatrixDenoising) : Z :=
  to_int (ref_rows (A this) * ref_cols (A this)).

End Denoising.

(** ** The arithmetic of the code *)

(** IEEE 754 binary64, the [double] of the code: 53 bits of precision,
    round to nearest even, one NaN. *)
Definition double : Type := spec_float.

#[export] Instance binary64 : Scalar double := {|
  fzero := S754_zero false;
  fhalf := S754_finite false 4503599627370496 (-53);
  fadd := SFadd 53 1024;
  fsub := SFsub 53 1024;
  fmul := SFmul 53 1024;
  fsqrt := SFsqrt 53 1024;
  fopp := SFopp;
  fabs := SFabs
|}.

(** A [double] that is a number: neither an infinity nor NaN. *)
Definition is_finite (x : double) : bool :=
  match x with
  | S754_zero _ | S754_finite _ _ _ => true
  | S754_infinity _ | S754_nan => false
  end.

(** Doubles from integers, for examples. *)
Definition of_Z (z : Z) : double := binary_normalize 53 1024 z 0 false.

(** [m * 2^e] as a double. *)
Definition of_Z_exp (m e : Z) : double := binary_normalize 53 1024 m e false.

(** ** Well-formed calls, footprints and call sequences *)

Section Calls.
Context {F : Type} `{Scalar F}.

(** The [n] cells from [p] are allocated. *)
Definition allocated (h : gmap Z F) (p : Z) (n : nat) : bool :=
  match load_block h p n with
  | Some _ => true
  | None => false
  end.

(** Number of coefficients of the target matrix. *)
Definition target_size (this : MatrixDenoising) : nat :=
  size_of (ref_rows (A this)) (ref_cols (A this)).

(** A well-formed call of [Evaluate] without a gradient request: the target
    matrix is in memory, the parameter buffer holds rows x cols cells and
    the cost pointer is valid. *)
Definition well_formed (this : MatrixDenoising) (h : gmap Z F)
    (parameters cost : Z) : bool :=
  allocated h (ref_data (A this)) (target_size this)
  && allocated h parameters (target_size this)
  && allocated h cost 1.

(** A well-formed call with a gradient request: the gradient buffer holds
    rows x cols cells as well. *)
Definition well_formed_gradient (this : MatrixDenoising) (h : gmap Z F)
    (parameters cost gradient : Z) : bool :=
  well_formed this h parameters cost
  && negb (gradient =? NULL)
  && allocated h gradient (target_size this).

(** The address [a] is outside the block of [n] cells at [p]. *)
Definition outside (a p : Z) (n : nat) : bool :=
  (a <? p) || (p + Z.of_nat n <=? a).

(** The blocks of [n] cells at [p] and of [m] cells at [q] do not overlap. *)
Definition apart (p : Z) (n : nat) (q : Z) (m : nat) : bool :=
  (p + Z.of_nat n <=? q) || (q + Z.of_nat m <=? p).

(** The calls a client can make on the functor. *)
Inductive call :=
| CallEvaluate (parameters cost gradient : Z)
| CallCostFrobenius (X : MatrixXd (F:=F))
| CallGradientFrobenius (X : MatrixXd (F:=F))
| CallNumParameters.

(** The memory after one call ([None]: undefined behaviour). *)
Definition run_call (this : MatrixDenoising) (h : gmap Z F) (c : call)
  : option (gmap Z F) :=
  match c with
  | CallEvaluate parameters cost gradient =>
      match Evaluate this h parameters cost gradient with
      | Some (_, h') => Some h'
      | None => None
      end
  | CallCostFrobenius X =>
      match costFrobenius this h X with
      | Some _ => Some h
      | None => None
      end
  | CallGradientFrobenius X =>
      match gradientFrobenius this h X with
      | Some _ => Some h
      | None => None
      end
  | CallNumParameters =>
      let _ := NumParameters this in Some h
  end.

Fixpoint run_calls (this : MatrixDenoising) (h : gmap Z F) (cs : list call)
  : option (gmap Z F) :=
  match cs with
  | [] => Some h
  | c :: cs' =>
      match run_call this h c with
      | Some h' => run_calls this h' cs'
      | None => None
      end
  end.

(** The address [a] belongs to a buffer that the caller supplied to the
    call [c] for output: the cost cell, or the gradient buffer when a
    gradient is requested. *)
Definition supplied (this : MatrixDenoising) (c : call) (a : Z) : bool :=
  match c with
  | CallEvaluate _ cost gradient =>
      (a =? cost)
      || (negb (gradient =? NULL) && negb (outside a gradient (target_size this)))
  | _ => false
  end.

(** No call of [cs] was given an output buffer that overlaps the block of
    [n] cells at [p]. *)
Definition untouched (this : MatrixDenoising) (cs : list call) (p : Z) (n : nat)
  : bool :=
  forallb (fun c =>
    match c with
    | CallEvaluate _ cost gradient =>
        apart cost 1 p n
        && ((gradient =? NULL) || apart gradient (target_size this) p n)
    | _ => true
    end) cs.

(** The value both branches of [Evaluate] compute from the coefficients of
    the candidate ([xs]) and of the target ([zs]). *)
Definition cost_of (xs zs : list F) : F :=
  fmul fhalf (fsqrt (sum (map abs2 (cwise fsub xs zs)))).

(** The same arithmetic with another constant in the place of [0.5]: another
    normalization of the scalar cost. *)
Definition renormalized (c : F) : Scalar F := {|
  fzero := fzero;
  fhalf := c;
  fadd := fadd;
  fsub := fsub;
  fmul := fmul;
  fsqrt := fsqrt;
  fopp := fopp;
  fabs := fabs
|}.

(** Matrices built coefficient by coefficient. *)
Definition cmap (f : F -> F) (M : MatrixXd) : MatrixXd :=
  mkMatrix (rows M) (cols M) (map f (coeffs M)).

(** [-M] and [c * M]. *)
Definition negate (M : MatrixXd) : MatrixXd := cmap fopp M.
Definition scale (c : F) (M : MatrixXd) : MatrixXd := cmap (fmul c) M.

(** The matrix whose coefficients are all [fzero]. *)
Definition Zero (r c : Z) : MatrixXd := mkMatrix r c (repeat fzero (size_of r c)).

(** ** The cost in the words of the specification *)

(** [f 0 + f 1 + ... + f (n - 1)]. *)
Fixpoint entry_sum (f : nat -> F) (n : nat) : F :=
  match n with
  | O => fzero
  | S n' =>
      match n' with
      | O => f O
      | S _ => fadd (entry_sum f n') (f n')
      end
  end.

(** The Frobenius norm: the square root of the sum of the squared
    entries. *)
Definition frobenius_norm (e : nat -> F) (n : nat) : F :=
  fsqrt (entry_sum (fun k => fmul (e k) (e k)) n).

(** The [k]-th cell of the buffer at [p]. *)
Definition cell (h : gmap Z F) (p : Z) (k : nat) : F :=
  default fzero (h !! (p + Z.of_nat k)).

(** The entries of [X - A], for the matrices stored at [x] and [a]. *)
Definition difference (h : gmap Z F) (x a : Z) : nat -> F :=
  fun k => fsub (cell h x k) (cell h a k).

(** [0.5 * ||X - A||_F]. *)
Definition half_distance (h : gmap Z F) (x a : Z) (n : nat) : F :=
  fmul fhalf (frobenius_norm (difference h x a) n).

End Calls.

(** ** The solver driver *)

Module ceres.

Inductive LoggingType := SILENT | PER_MINIMIZER_ITERATION.

Inductive LineSearchDirectionType :=
| STEEPEST_DESCENT | NONLINEAR_CONJUGATE_GRADIENT | LBFGS | BFGS.

Inductive LineSearchType := ARMIJO | WOLFE.

(** Modelled from the spec: [GradientProblemSolver::Options] is not under
    src/.  The fields the driver sets (iteration cap, tolerances, line-search
    variant, logging), and the fields it leaves alone ([other]). *)
Record Options (Other : Type) := mkOptions {
  max_num_iterations : Z;
  logging_type : LoggingType;
  minimizer_progress_to_stdout : bool;
  function_tolerance : double;
  gradient_tolerance : double;
  line_search_direction_type : LineSearchDirectionType;
  line_search_type : LineSearchType;
  other : Other
}.

Arguments mkOptions {Other}.
Arguments max_num_iterations {Other}.
Arguments logging_type {Other}.
Arguments minimizer_progress_to_stdout {Other}.
Arguments function_tolerance {Other}.
Arguments gradient_tolerance {Other}.
Arguments line_search_direction_type {Other}.
Arguments line_search_type {Other}.
Arguments other {Other}.

(** Assignments to the fields, [options.field = v]. *)
Section Assignments.
Context {Other : Type}.
Implicit Type o : Options Other.

Definition set_max_num_iterations (v : Z) o :=
  mkOptions v (logging_type o) (minimizer_progress_to_stdout o)
    (function_tolerance o) (gradient_tolerance o)
    (line_search_direction_type o) (line_search_type o) (other o).

Definition set_logging_type (v : LoggingType) o :=
  mkOptions (max_num_iterations o) v (minimizer_progress_to_stdout o)
    (function_tolerance o) (gradient_tolerance o)
    (line_search_direction_type o) (line_search_type o) (other o).

Definition set_minimizer_progress_to_stdout (v : bool) o :=
  mkOptions (max_num_iterations o) (logging_type o) v
    (function_tolerance o) (gradient_tolerance o)
    (line_search_direction_type o) (line_search_type o) (other o).

Definition set_function_tolerance (v : double) o :=
  mkOptions (max_num_iterations o) (logging_type o)
    (minimizer_progress_to_stdout o) v (gradient_tolerance o)
    (line_search_direction_type o) (line_search_type o) (other o).

Definition set_gradient_tolerance (v : double) o :=
  mkOptions (max_num_iterations o) (logging_type o)
    (minimizer_progress_to_stdout o) (function_tolerance o) v
    (line_search_direction_type o) (line_search_type o) (other o).

Definition set_line_search_direction_type (v : LineSearchDirectionType) o :=
  mkOptions (max_num_iterations o) (logging_type o)
    (minimizer_progress_to_stdout o) (function_tolerance o)
    (gradient_tolerance o) v (line_search_type o) (other o).

Definition set_line_search_type (v : LineSearchType) o :=
  mkOptions (max_num_iterations o) (logging_type o)
    (minimizer_progress_to_stdout o) (function_tolerance o)
    (gradient_tolerance o) (line_search_direction_type o) v (other o).
End Assignments.

End ceres.


(** The literal [1e-8]: the double nearest to 10^-8, which is the correctly
    rounded quotient of the doubles 1 and 10^8. *)
Definition lit_1e_8 : double := SFdiv 53 1024 (of_Z 1) (of_Z 100000000).

(** The value [m * 2^e] of a finite double lies within half a unit in the
    last place of [1 / d]: [|m * 2^e - 1/d| <= 2^e / 2], with the
    denominators cleared. *)
Definition nearest_to_inverse (x : double) (d : Z) : bool :=
  match x with
  | S754_finite false m e =>
      (e <? 0) && (2 * Z.abs (Z.pos m * d - 2 ^ (- e)) <=? d)
  | _ => false
  end.

Section Driver.
(** The library's solver, its problem and summary types, and the options a
    default-constructed [Options] holds. *)
Context {Other GradientProblem Summary : Type}.
Variable Solve :
  ceres.Options Other -> GradientProblem -> gmap Z double -> Z ->
  Summary * gmap Z double.
Variable defaults : ceres.Options Other.

(** The options the driver hands to the solver: a default-constructed
    [Options] after the assignments of the driver, in their order. *)
Definition driver_options : ceres.Options Other :=
  let options := defaults in
  let options := ceres.set_max_num_iterations 200 options in
  let options := ceres.set_logging_type ceres.PER_MINIMIZER_ITERATION options in
  let options := ceres.set_minimizer_progress_to_stdout true options in
  let options := ceres.set_function_tolerance lit_1e_8 options in
  let options := ceres.set_gradient_tolerance lit_1e_8 options in
  let options := ceres.set_line_search_direction_type ceres.LBFGS options in
  let options := ceres.set_line_search_type ceres.WOLFE options in
  options.

Definition solveGradientProblem (gradientProblem : GradientProblem)
    (h : gmap Z double) (solution : MatrixRef) : Summary * gmap Z double :=
  let options := driver_options in
  Solve options gradientProblem h (ref_data solution).

End Driver.


(** ** A small instance *)

(** The target [A = (1, 2)] is stored at address 100, the candidate
    [X = (4, 6)] at 200, the cost cell is 300 and a gradient buffer of two
    cells starts at 400. *)
Definition example_functor : MatrixDenoising := mkDenoising (mkRef 100 2 1).

Definition example_memory : gmap Z double :=
  list_to_map
    [(100, of_Z 1); (101, of_Z 2);
     (200, of_Z 4); (201, of_Z 6);
     (300, of_Z 0);
     (400, of_Z 0); (401, of_Z 0)].


(** A target of 65536 x 32768 coefficients (16 GiB of doubles). *)
Definition large_functor : MatrixDenoising := mkDenoising (mkRef 4096 65536 32768).

(** A sequence of calls on the small instance: two evaluations, one of them
    with a gradient request, and the three other methods. *)
Definition example_calls : list (call (F := double)) :=
  [ CallEvaluate 200 300 NULL;
    CallNumParameters;
    CallCostFrobenius (mkMatrix 2 1 [of_Z 4; of_Z 6]);
    CallEvaluate 200 300 400;
    CallGradientFrobenius (mkMatrix 2 1 [of_Z 4; of_Z 6]) ].


(** The small instance with every matrix negated: [-A = (-1, -2)]. *)
Definition negated_memory : gmap Z double :=
  list_to_map [(100, of_Z (-1)); (101, of_Z (-2))].

(** The small instance with the candidate equal to the target, and a
    gradient buffer that holds other values. *)
Definition equal_memory : gmap Z double :=
  list_to_map
    [(100, of_Z 1); (101, of_Z 2);
     (200, of_Z 1); (201, of_Z 2);
     (300, of_Z 7);
     (400, of_Z 8); (401, of_Z 9)].

(** A 1 x 1 target stored at address 100, and the memory that holds the one
    coefficient [a] there, the candidate [x] at 200, a cost cell at 300 and
    a gradient cell at 400. *)
Definition unit_functor : MatrixDenoising := mkDenoising (mkRef 100 1 1).

Definition unit_memory {F : Type} `{Scalar F} (a x : F) : gmap Z F :=
  list_to_map [(100, a); (200, x); (300, fzero); (400, fzero)].

(** The 1 x 1 matrix that holds [x]. *)
Definition unit_matrix {F : Type} (x : F) : MatrixXd := mkMatrix 1 1 [x].


(** A double that is not negative: its sign bit is clear, or it is NaN. *)
Definition not_negative (x : double) : bool :=
  match x with
  | S754_nan => true
  | S754_zero s | S754_infinity s | S754_finite s _ _ => negb s
  end.

(** A target without coefficients (0 rows, 3 columns), and the small
    instance with the candidate in the place of the target:
    [X = (4, 6)] stored at address 100. *)
Definition empty_functor : MatrixDenoising := mkDenoising (mkRef 100 0 3).

Definition swapped_memory : gmap Z double :=
  list_to_map [(100, of_Z 4); (101, of_Z 6)].


(** The small instance again, with the cost cell at 301, the gradient
    buffer at 500, and other values in both. *)
Definition moved_memory : gmap Z double :=
  list_to_map
    [(100, of_Z 1); (101, of_Z 2);
     (200, of_Z 4); (201, of_Z 6);
     (301, of_Z 11);
     (500, of_Z 12); (501, of_Z 13)].


(** ** Scaling by a power of two without underflow or overflow *)

(** [2^k] as a double, with a sign: the mantissa [2^52] and the exponent
    [k - 52]. *)
Definition power_of_two (negative : bool) (k : Z) : double :=
  S754_finite negative 4503599627370496 (k - 52).

(** [x * 2^k], exactly: the exponent moves, the mantissa stays. *)
Definition times_pow2 (k : Z) (x : double) : double :=
  match x with
  | S754_finite s m e => S754_finite s m (e + k)
  | _ => x
  end.

(** Zero, or a normal number: a mantissa of 53 bits and an exponent in
    range. *)
Definition normal (x : double) : bool :=
  match x with
  | S754_zero _ => true
  | S754_finite _ m e =>
      (Z.pos (digits2_pos m) =? 53) && (-1074 <=? e) && (e <=? 971)
  | _ => false
  end.

(** [x] and [x * 2^k] are zero or normal. *)
Definition scales_normally (k : Z) (x : double) : bool :=
  normal x && normal (times_pow2 k x).

(** The mantissa after rounding [m * 2^e] (known up to the location [l]) to
    nearest even, and its exponent, before the last normalization. *)
Definition rounded (m e : Z) (l : location) : Z * Z :=
  (round_nearest_even (shr_m (fst (shr_fexp 53 1024 m e l)))
     (loc_of_shr_record (fst (shr_fexp 53 1024 m e l))),
   snd (shr_fexp 53 1024 m e l)).

(** Rounding [m * 2^e] neither underflows nor overflows: the exact value
    and its rounding are at least [2^-1022] in magnitude (the least normal
    number), and the result is finite. *)
Definition rounds_normally (m e : Z) (l : location) : bool :=
  (-1021 <=? Zdigits2 m + e)
  && (-1021 <=? Zdigits2 (fst (rounded m e l)) + snd (rounded m e l))
  && (snd (shr_fexp 53 1024 (fst (rounded m e l)) (snd (rounded m e l)) loc_Exact)
      <=? 971).

(** The same for the integer [m] (of either sign) at the exponent [e], as
    an addition or a subtraction produces it; an exact zero is fine. *)
Definition normalizes_normally (m e : Z) : bool :=
  match m with
  | Z0 => true
  | Zpos p | Zneg p =>
      (-1021 <=? Z.pos (digits2_pos p) + e)
      && rounds_normally
           (Z.pos (fst (shl_align p e (fexp 53 1024 (Z.pos (digits2_pos p) + e)))))
           (snd (shl_align p e (fexp 53 1024 (Z.pos (digits2_pos p) + e))))
           loc_Exact
  end.

(** The operations on two numbers that neither underflow nor overflow. *)
Definition sub_normally (x y : double) : bool :=
  match x, y with
  | S754_finite sx mx ex, S754_finite sy my ey =>
      normalizes_normally
        (cond_Zopp sx (Z.pos (fst (shl_align mx ex (Z.min ex ey))))
         - cond_Zopp sy (Z.pos (fst (shl_align my ey (Z.min ex ey)))))
        (Z.min ex ey)
  | _, _ => is_finite x && is_finite y
  end.

Definition add_normally (x y : double) : bool :=
  match x, y with
  | S754_finite sx mx ex, S754_finite sy my ey =>
      normalizes_normally
        (cond_Zopp sx (Z.pos (fst (shl_align mx ex (Z.min ex ey))))
         + cond_Zopp sy (Z.pos (fst (shl_align my ey (Z.min ex ey)))))
        (Z.min ex ey)
  | _, _ => is_finite x && is_finite y
  end.

Definition mul_normally (x y : double) : bool :=
  match x, y with
  | S754_finite _ mx ex, S754_finite _ my ey =>
      rounds_normally (Z.pos (mx * my)) (ex + ey) loc_Exact
  | _, _ => is_finite x && is_finite y
  end.

Definition sqrt_normally (x : double) : bool :=
  match x with
  | S754_zero _ => true
  | S754_finite false m e =>
      (-1021 <=? Z.div2 (Z.pos (digits2_pos m) + e + 1))
      && rounds_normally
           (fst (fst (SFsqrt_core_binary 53 1024 (Z.pos m) e)))
           (snd (fst (SFsqrt_core_binary 53 1024 (Z.pos m) e)))
           (snd (SFsqrt_core_binary 53 1024 (Z.pos m) e))
  | _ => false
  end.

(** Entry by entry, and along the sum. *)
Fixpoint subs_normally (xs zs : list double) : bool :=
  match xs, zs with
  | x :: xs', z :: zs' => sub_normally x z && subs_normally xs' zs'
  | _, _ => true
  end.

Fixpoint adds_normally (a : double) (l : list double) : bool :=
  match l with
  | [] => true
  | x :: l' => add_normally a x && adds_normally (fadd a x) l'
  end.

Definition sum_normally (l : list double) : bool :=
  match l with
  | [] => true
  | x :: l' => adds_normally x l'
  end.

(** No operation of the computation of the cost underflows or overflows:
    the differences, their squares, the partial sums, the square root and
    the product by 0.5. *)
Definition cost_normally (xs zs : list double) : bool :=
  subs_normally xs zs
  && forallb (fun d => mul_normally d d) (cwise fsub xs zs)
  && sum_normally (map abs2 (cwise fsub xs zs))
  && sqrt_normally (sum (map abs2 (cwise fsub xs zs)))
  && mul_normally fhalf (fsqrt (sum (map abs2 (cwise fsub xs zs)))).

(** Matrices with entries that are not integers: [A = (0.7, 2)] at address
    100, against the candidate [X = (3, 6)], and the memory that holds
    [-4 A]. *)
Definition seven_tenths : double := SFdiv 53 1024 (of_Z 7) (of_Z 10).

Definition rounding_memory : gmap Z double :=
  list_to_map [(100, seven_tenths); (101, of_Z 2)].

Definition scaled_memory : gmap Z double :=
  list_to_map
    [(100, fmul (power_of_two true 2) seven_tenths);
     (101, fmul (power_of_two true 2) (of_Z 2))].


(** * Properties *)

(** ** Memory *)

Section MemoryFacts.
Context {F : Type} `{Scalar F}.
Implicit Types (h : gmap Z F) (l : list F).

Lemma outside_spec (a p : Z) (n : nat) :
  outside a p n = true <-> a < p \/ p + Z.of_nat n <= a.
Proof.
  unfold outside. rewrite orb_true_iff, Z.ltb_lt, Z.leb_le. reflexivity.
Qed.

Lemma apart_spec (p : Z) (n : nat) (q : Z) (m : nat) :
  apart p n q m = true <-> p + Z.of_nat n <= q \/ q + Z.of_nat m <= p.
Proof.
  unfold apart. rewrite orb_true_iff, !Z.leb_le. reflexivity.
Qed.

Lemma load_block_length h p n l :
  load_block h p n = Some l -> length l = n.
Proof.
  revert p l. induction n as [|n IH]; intros p l; simpl.
  - intros [= <-]. reflexivity.
  - destruct (h !! p) as [x|]; [|discriminate].
    destruct (load_block h (p + 1) n) as [xs|] eqn:E; [|discriminate].
    intros [= <-]. simpl. f_equal. eauto.
Qed.

Lemma load_block_lookup h p n l :
  load_block h p n = Some l ->
  forall k, (k < n)%nat -> h !! (p + Z.of_nat k) = l !! k.
Proof.
  revert p l. induction n as [|n IH]; intros p l; simpl.
  - intros _ k Hk. lia.
  - destruct (h !! p) as [x|] eqn:Hp; [|discriminate].
    destruct (load_block h (p + 1) n) as [xs|] eqn:E; [|discriminate].
    intros [= <-] [|k] Hk.
    + rewrite Z.add_0_r. exact Hp.
    + replace (p + Z.of_nat (S k)) with (p + 1 + Z.of_nat k) by lia.
      simpl. apply IH; [exact E | lia].
Qed.

Lemma load_block_ext h h' p n :
  (forall k, (k < n)%nat -> h' !! (p + Z.of_nat k) = h !! (p + Z.of_nat k)) ->
  load_block h' p n = load_block h p n.
Proof.
  revert p. induction n as [|n IH]; intros p Hk; simpl; [reflexivity|].
  generalize (Hk O). rewrite Z.add_0_r. intros ->; [|lia].
  rewrite IH; [reflexivity|].
  intros k Hlt. replace (p + 1 + Z.of_nat k) with (p + Z.of_nat (S k)) by lia.
  apply Hk. lia.
Qed.

Lemma load_block_cells h p n l :
  load_block h p n = Some l ->
  forall k, (k < n)%nat -> l !! k = Some (cell h p k).
Proof.
  intros Hl k Hk. unfold cell.
  rewrite (load_block_lookup _ _ _ _ Hl k Hk).
  destruct (l !! k) eqn:E; [reflexivity|].
  apply lookup_ge_None in E. apply load_block_length in Hl. lia.
Qed.

Lemma allocated_load h p n :
  allocated h p n = true -> exists l, load_block h p n = Some l.
Proof.
  unfold allocated. destruct (load_block h p n) as [l|]; [eauto | discriminate].
Qed.

Lemma allocated_lookup h p n :
  allocated h p n = true <->
  forall k, (k < n)%nat -> is_Some (h !! (p + Z.of_nat k)).
Proof.
  split.
  - intros Ha k Hk. destruct (allocated_load _ _ _ Ha) as [l Hl].
    rewrite (load_block_lookup _ _ _ _ Hl k Hk).
    rewrite (load_block_cells _ _ _ _ Hl k Hk). eauto.
  - unfold allocated. revert p. induction n as [|n IH]; intros p Hk; simpl; [reflexivity|].
    destruct (Hk O) as [x Hx]; [lia|]. rewrite Z.add_0_r in Hx. rewrite Hx.
    assert (Hn : forall k, (k < n)%nat -> is_Some (h !! (p + 1 + Z.of_nat k))).
    { intros k Hlt. replace (p + 1 + Z.of_nat k) with (p + Z.of_nat (S k)) by lia.
      apply Hk. lia. }
    specialize (IH (p + 1) Hn).
    destruct (load_block h (p + 1) n); [reflexivity | discriminate].
Qed.

Lemma store_lookup h p x h' a :
  store h p x = Some h' ->
  h' !! a = if decide (a = p) then Some x else h !! a.
Proof.
  unfold store. destruct (h !! p) eqn:E; [|discriminate]. intros [= <-].
  destruct (decide (a = p)) as [->|Hne].
  - apply lookup_insert_eq.
  - apply lookup_insert_ne. congruence.
Qed.

Lemma store_is_Some h p x h' a :
  store h p x = Some h' -> is_Some (h' !! a) <-> is_Some (h !! a).
Proof.
  intros Hs. rewrite (store_lookup _ _ _ _ a Hs).
  destruct (decide (a = p)) as [->|]; [|reflexivity].
  unfold store in Hs. destruct (h !! p); [|discriminate]. split; eauto.
Qed.

Lemma store_allocated h p x :
  allocated h p 1 = true -> store h p x = Some (<[p := x]> h).
Proof.
  unfold allocated, store. simpl. destruct (h !! p); [reflexivity | discriminate].
Qed.

Lemma store_block_is_Some h p l h' a :
  store_block h p l = Some h' -> is_Some (h' !! a) <-> is_Some (h !! a).
Proof.
  revert h p. induction l as [|x l IH]; intros h p; simpl.
  - intros [= <-]. reflexivity.
  - destruct (store h p x) as [h1|] eqn:E; [|discriminate].
    intros Hs. rewrite (IH _ _ Hs). eapply store_is_Some; eauto.
Qed.

Lemma store_block_outside h p l h' a :
  store_block h p l = Some h' ->
  outside a p (length l) = true -> h' !! a = h !! a.
Proof.
  rewrite outside_spec. revert h p.
  induction l as [|x l IH]; intros h p; simpl length.
  - intros [= <-]. reflexivity.
  - simpl. destruct (store h p x) as [h1|] eqn:E; [|discriminate].
    intros Hs Ho. rewrite (IH _ _ Hs) by lia.
    rewrite (store_lookup _ _ _ _ a E). destruct (decide (a = p)); [lia | reflexivity].
Qed.

Lemma store_block_inside h p l h' :
  store_block h p l = Some h' ->
  forall k, (k < length l)%nat -> h' !! (p + Z.of_nat k) = l !! k.
Proof.
  revert h p. induction l as [|x l IH]; intros h p; simpl length.
  - intros _ k Hk. lia.
  - simpl. destruct (store h p x) as [h1|] eqn:E; [|discriminate].
    intros Hs [|k] Hk.
    + rewrite Z.add_0_r. rewrite (store_block_outside _ _ _ _ p Hs).
      * rewrite (store_lookup _ _ _ _ p E). destruct (decide (p = p)); [reflexivity | congruence].
      * apply outside_spec. lia.
    + replace (p + Z.of_nat (S k)) with (p + 1 + Z.of_nat k) by lia.
      simpl. apply (IH _ _ Hs). lia.
Qed.

Lemma load_block_of_lookup h p l :
  (forall k, (k < length l)%nat -> h !! (p + Z.of_nat k) = l !! k) ->
  load_block h p (length l) = Some l.
Proof.
  revert p. induction l as [|x l IH]; intros p Hk; simpl; [reflexivity|].
  generalize (Hk O). rewrite Z.add_0_r. simpl. intros ->; [|lia].
  rewrite IH; [reflexivity|].
  intros k Hlt. replace (p + 1 + Z.of_nat k) with (p + Z.of_nat (S k)) by lia.
  apply (Hk (S k)). simpl. lia.
Qed.

Lemma store_block_load h p l h' :
  store_block h p l = Some h' -> load_block h' p (length l) = Some l.
Proof.
  intros Hs. apply load_block_of_lookup. apply (store_block_inside _ _ _ _ Hs).
Qed.

Lemma store_block_allocated h p l :
  allocated h p (length l) = true -> exists h', store_block h p l = Some h'.
Proof.
  revert h p. induction l as [|x l IH]; intros h p Ha; simpl; [eauto|].
  pose proof (proj1 (allocated_lookup _ _ _) Ha) as Hk.
  destruct (Hk O) as [y Hy]; [simpl; lia|]. rewrite Z.add_0_r in Hy.
  unfold store at 1. rewrite Hy. apply IH.
  apply allocated_lookup. intros k Hlt.
  destruct (decide (p + 1 + Z.of_nat k = p)) as [|Hne]; [lia|].
  rewrite lookup_insert_ne by congruence.
  replace (p + 1 + Z.of_nat k) with (p + Z.of_nat (S k)) by lia.
  apply Hk. simpl. lia.
Qed.

End MemoryFacts.

(** ** Eigen's reductions and the sum of the specification *)

Section EigenFacts.
Context {F : Type} `{Scalar F}.
Implicit Types (h : gmap Z F) (l : list F).

Lemma cwise_length (f : F -> F -> F) l1 l2 :
  length l1 = length l2 -> length (cwise f l1 l2) = length l1.
Proof.
  revert l2. induction l1 as [|x l1 IH]; intros [|y l2]; simpl; try lia.
  intros [= E]. f_equal. auto.
Qed.

Lemma cwise_lookup (f : F -> F -> F) l1 l2 k x y :
  l1 !! k = Some x -> l2 !! k = Some y -> cwise f l1 l2 !! k = Some (f x y).
Proof.
  revert l2 k. induction l1 as [|x1 l1 IH]; intros [|y1 l2] [|k]; simpl;
    try discriminate.
  - intros [= ->] [= ->]. reflexivity.
  - apply IH.
Qed.

Lemma map_lookup_Some (f : F -> F) l k x :
  l !! k = Some x -> map f l !! k = Some (f x).
Proof.
  revert k. induction l as [|y l IH]; intros [|k]; simpl; try discriminate.
  - intros [= ->]. reflexivity.
  - apply IH.
Qed.

Lemma sum_snoc l x y :
  sum ((y :: l) ++ [x]) = fadd (sum (y :: l)) x.
Proof. simpl. rewrite fold_left_app. reflexivity. Qed.

Lemma entry_sum_ext (f g : nat -> F) n :
  (forall k, (k < n)%nat -> f k = g k) -> entry_sum f n = entry_sum g n.
Proof.
  induction n as [|n IH]; intros E; [reflexivity|].
  simpl. destruct n as [|n]; [apply E; lia|].
  rewrite IH by (intros; apply E; lia). f_equal. apply E. lia.
Qed.

(** Adding the coefficients of an array in storage order is the sum of its
    entries. *)
Lemma sum_entry_sum l (f : nat -> F) :
  (forall k, (k < length l)%nat -> l !! k = Some (f k)) ->
  sum l = entry_sum f (length l).
Proof.
  induction l as [|x l IH] using rev_ind; intros E; [reflexivity|].
  rewrite length_app, Nat.add_comm. simpl length.
  assert (Ex : f (length l) = x).
  { specialize (E (length l)). rewrite length_app in E. simpl in E.
    rewrite lookup_app_r in E by lia. rewrite Nat.sub_diag in E. simpl in E.
    specialize (E ltac:(lia)). congruence. }
  assert (El : forall k, (k < length l)%nat -> l !! k = Some (f k)).
  { intros k Hk. rewrite <- (E k) by (rewrite length_app; simpl; lia).
    symmetry. apply lookup_app_l. exact Hk. }
  destruct l as [|y l].
  - simpl in *. congruence.
  - rewrite sum_snoc, (IH El). rewrite <- Ex. reflexivity.
Qed.

(** The squared norm that the code computes from two buffers is the sum of
    the squared entries of their difference. *)
Lemma squared_difference h x a n xs zs :
  load_block h x n = Some xs ->
  load_block h a n = Some zs ->
  sum (map abs2 (cwise fsub xs zs)) =
  entry_sum (fun k => fmul (difference h x a k) (difference h x a k)) n.
Proof.
  intros Hx Ha.
  pose proof (load_block_length _ _ _ _ Hx) as Lx.
  pose proof (load_block_length _ _ _ _ Ha) as La.
  assert (Ln : length (map abs2 (cwise fsub xs zs)) = n).
  { rewrite length_map, cwise_length; lia. }
  rewrite <- Ln at 1. apply sum_entry_sum. rewrite Ln. intros k Hk.
  apply (map_lookup_Some abs2). apply cwise_lookup.
  - apply (load_block_cells _ _ _ _ Hx). exact Hk.
  - apply (load_block_cells _ _ _ _ Ha). exact Hk.
Qed.

End EigenFacts.

(** ** What [Evaluate] does *)

Section EvaluateFacts.
Context {F : Type} `{Scalar F}.
Implicit Types (h : gmap Z F) (l : list F) (this : MatrixDenoising).

Lemma well_formed_blocks this h parameters cost :
  well_formed this h parameters cost = true ->
  exists xs zs,
    load_block h parameters (target_size this) = Some xs /\
    load_block h (ref_data (A this)) (target_size this) = Some zs /\
    allocated h cost 1 = true.
Proof.
  unfold well_formed. rewrite !andb_true_iff. intros [[Ha Hp] Hc].
  destruct (allocated_load _ _ _ Ha) as [zs Hzs].
  destruct (allocated_load _ _ _ Hp) as [xs Hxs]. eauto.
Qed.

Lemma costFrobenius_blocks this h xs zs :
  load_block h (ref_data (A this)) (target_size this) = Some zs ->
  costFrobenius this h (mkMatrix (ref_rows (A this)) (ref_cols (A this)) xs)
  = Some (cost_of xs zs).
Proof.
  intros Ha. unfold costFrobenius, deref, Map. fold (target_size this).
  rewrite Ha. unfold mat_sub. simpl. rewrite !Z.eqb_refl. reflexivity.
Qed.

Lemma gradientFrobenius_blocks this h xs zs :
  load_block h (ref_data (A this)) (target_size this) = Some zs ->
  gradientFrobenius this h (mkMatrix (ref_rows (A this)) (ref_cols (A this)) xs)
  = Some (mkMatrix (ref_rows (A this)) (ref_cols (A this)) (cwise fsub xs zs)).
Proof.
  intros Ha. unfold gradientFrobenius, deref, Map. fold (target_size this).
  rewrite Ha. unfold mat_sub. simpl. rewrite !Z.eqb_refl. reflexivity.
Qed.

Lemma Evaluate_no_gradient this h parameters cost xs zs :
  load_block h parameters (target_size this) = Some xs ->
  load_block h (ref_data (A this)) (target_size this) = Some zs ->
  allocated h cost 1 = true ->
  Evaluate this h parameters cost NULL
  = Some (true, <[cost := cost_of xs zs]> h).
Proof.
  intros Hx Ha Hc. unfold Evaluate, Map. fold (target_size this).
  rewrite Hx. simpl (NULL =? NULL). cbv iota.
  rewrite (costFrobenius_blocks _ _ _ _ Ha).
  rewrite (store_allocated _ _ _ Hc). reflexivity.
Qed.

Lemma Evaluate_with_gradient this h parameters cost gradient xs zs :
  load_block h parameters (target_size this) = Some xs ->
  load_block h (ref_data (A this)) (target_size this) = Some zs ->
  allocated h cost 1 = true ->
  gradient <> NULL ->
  allocated h gradient (target_size this) = true ->
  exists h1,
    store_block h gradient (cwise fsub xs zs) = Some h1 /\
    Evaluate this h parameters cost gradient
    = Some (true, <[cost := cost_of xs zs]> h1).
Proof.
  intros Hx Ha Hc Hg Hgb.
  pose proof (load_block_length _ _ _ _ Hx) as Lx.
  pose proof (load_block_length _ _ _ _ Ha) as La.
  assert (Ld : length (cwise fsub xs zs) = target_size this).
  { rewrite cwise_length; lia. }
  destruct (store_block_allocated h gradient (cwise fsub xs zs)) as [h1 Hs].
  { rewrite Ld. exact Hgb. }
  exists h1. split; [exact Hs|].
  unfold Evaluate, Map. fold (target_size this). rewrite Hx.
  destruct (gradient =? NULL) eqn:E; [apply Z.eqb_eq in E; contradiction|].
  unfold costGradientFrobenius.
  rewrite (gradientFrobenius_blocks _ _ _ _ Ha).
  unfold Map_assign. simpl rows. simpl cols. simpl coeffs.
  rewrite !Z.eqb_refl. fold (target_size this).
  rewrite Ld, Nat.eqb_refl. simpl andb. cbv iota. rewrite Hs.
  unfold Map. fold (target_size this).
  rewrite <- Ld at 1. rewrite (store_block_load _ _ _ _ Hs).
  assert (Hc1 : allocated h1 cost 1 = true).
  { apply allocated_lookup. intros k Hk.
    apply (store_block_is_Some _ _ _ _ _ Hs).
    apply (proj1 (allocated_lookup _ _ _) Hc). exact Hk. }
  unfold norm, squaredNorm. simpl coeffs.
  rewrite (store_allocated _ _ _ Hc1). reflexivity.
Qed.

End EvaluateFacts.

(** ** The cost and the gradient *)

Section CostAndGradient.
Context {F : Type} `{Scalar F}.
Implicit Types (h : gmap Z F) (l : list F) (this : MatrixDenoising).

Lemma cost_of_half_distance h x a n xs zs :
  load_block h x n = Some xs ->
  load_block h a n = Some zs ->
  cost_of xs zs = half_distance h x a n.
Proof.
  intros Hx Ha. unfold cost_of, half_distance, frobenius_norm.
  rewrite (squared_difference _ _ _ _ _ _ Hx Ha). reflexivity.
Qed.

(** C1. Without a gradient request, a well-formed call of [Evaluate] returns
    true and writes into the cost cell one half of the Frobenius norm (not
    squared) of X - A, where X is the parameter buffer read as a matrix of
    the dimensions of A; no other cell changes. *)
Theorem Evaluate_cost_is_half_frobenius_norm this h parameters cost :
  well_formed this h parameters cost = true ->
  Evaluate this h parameters cost NULL
  = Some (true,
          <[cost := half_distance h parameters (ref_data (A this)) (target_size this)]> h).
Proof.
  intros Hwf.
  destruct (well_formed_blocks _ _ _ _ Hwf) as (xs & zs & Hx & Ha & Hc).
  rewrite (Evaluate_no_gradient _ _ _ _ _ _ Hx Ha Hc).
  rewrite (cost_of_half_distance _ _ _ _ _ _ Hx Ha). reflexivity.
Qed.

Lemma well_formed_gradient_blocks this h parameters cost gradient :
  well_formed_gradient this h parameters cost gradient = true ->
  well_formed this h parameters cost = true /\
  gradient <> NULL /\
  allocated h gradient (target_size this) = true.
Proof.
  unfold well_formed_gradient. rewrite !andb_true_iff, negb_true_iff, Z.eqb_neq.
  tauto.
Qed.

End CostAndGradient.

(** The instance of C1 at the small example: the cost of X = (4, 6) against
    A = (1, 2) is 2.5. *)
Lemma Evaluate_cost_is_half_frobenius_norm_witness :
  well_formed example_functor example_memory 200 300 = true /\
  Evaluate example_functor example_memory 200 300 NULL
  = Some (true, <[300 := half_distance example_memory 200 100 2]> example_memory) /\
  half_distance example_memory 200 100 2 = of_Z_exp 5 (-1).
Proof.
  split; [reflexivity|]. split.
  - apply (Evaluate_cost_is_half_frobenius_norm example_functor example_memory 200 300).
    reflexivity.
  - reflexivity.
Defined.

Section GradientRequest.
Context {F : Type} `{Scalar F}.
Implicit Types (h : gmap Z F) (l : list F) (this : MatrixDenoising).

Lemma cwise_difference h x a n xs zs :
  load_block h x n = Some xs ->
  load_block h a n = Some zs ->
  forall k, (k < n)%nat -> cwise fsub xs zs !! k = Some (difference h x a k).
Proof.
  intros Hx Ha k Hk. unfold difference. apply cwise_lookup.
  - apply (load_block_cells _ _ _ _ Hx). exact Hk.
  - apply (load_block_cells _ _ _ _ Ha). exact Hk.
Qed.

(** The memory after a well-formed call with a gradient request. *)
Lemma Evaluate_gradient_memory this h parameters cost gradient :
  well_formed_gradient this h parameters cost gradient = true ->
  exists h1 h',
    Evaluate this h parameters cost gradient = Some (true, h') /\
    h' = <[cost := half_distance h parameters (ref_data (A this)) (target_size this)]> h1 /\
    (forall k, (k < target_size this)%nat ->
       h1 !! (gradient + Z.of_nat k)
       = Some (difference h parameters (ref_data (A this)) k)) /\
    (forall a, outside a gradient (target_size this) = true -> h1 !! a = h !! a).
Proof.
  intros Hwf.
  destruct (well_formed_gradient_blocks _ _ _ _ _ Hwf) as (Hwf0 & Hg & Hgb).
  destruct (well_formed_blocks _ _ _ _ Hwf0) as (xs & zs & Hx & Ha & Hc).
  destruct (Evaluate_with_gradient _ _ _ _ _ _ _ Hx Ha Hc Hg Hgb) as (h1 & Hs & He).
  pose proof (load_block_length _ _ _ _ Hx) as Lx.
  pose proof (load_block_length _ _ _ _ Ha) as La.
  assert (Ld : length (cwise fsub xs zs) = target_size this).
  { rewrite cwise_length; lia. }
  exists h1, (<[cost := cost_of xs zs]> h1). split; [exact He|]. split; [|split].
  - rewrite (cost_of_half_distance _ _ _ _ _ _ Hx Ha). reflexivity.
  - intros k Hk. rewrite (store_block_inside _ _ _ _ Hs) by lia.
    apply (cwise_difference _ _ _ _ _ _ Hx Ha). exact Hk.
  - intros a Ho. apply (store_block_outside _ _ _ _ _ Hs). rewrite Ld. exact Ho.
Qed.

End GradientRequest.

Section Gradient.
Context {F : Type} `{Scalar F}.
Implicit Types (h : gmap Z F) (this : MatrixDenoising).

(** C2. With a gradient request, a well-formed call of [Evaluate] (the cost
    cell is not one of the cells of the gradient buffer) writes X - A, entry
    by entry, into the gradient buffer; the buffer holds the same entries
    whatever constant [c] normalizes the scalar cost in the place of 0.5. *)
Theorem Evaluate_gradient_is_difference this h parameters cost gradient :
  well_formed_gradient this h parameters cost gradient = true ->
  outside cost gradient (target_size this) = true ->
  exists h',
    Evaluate this h parameters cost gradient = Some (true, h') /\
    (forall k, (k < target_size this)%nat ->
       h' !! (gradient + Z.of_nat k)
       = Some (fsub (cell h parameters k) (cell h (ref_data (A this)) k))) /\
    (forall c : F, exists h'',
       Evaluate (H := renormalized c) this h parameters cost gradient
       = Some (true, h'') /\
       forall k, (k < target_size this)%nat ->
         h'' !! (gradient + Z.of_nat k) = h' !! (gradient + Z.of_nat k)).
Proof.
  intros Hwf Ho. apply outside_spec in Ho.
  destruct (Evaluate_gradient_memory this h parameters cost gradient Hwf)
    as (h1 & h' & He & -> & Hin & _).
  assert (Hk : forall k, (k < target_size this)%nat ->
            <[cost := half_distance h parameters (ref_data (A this)) (target_size this)]> h1
              !! (gradient + Z.of_nat k)
            = Some (fsub (cell h parameters k) (cell h (ref_data (A this)) k))).
  { intros k Hlt. rewrite lookup_insert_ne by lia. rewrite (Hin k Hlt). reflexivity. }
  eexists. split; [exact He|]. split; [exact Hk|].
  intros c.
  destruct (Evaluate_gradient_memory (H := renormalized c) this h parameters cost
              gradient Hwf) as (g1 & h'' & He' & -> & Hin' & _).
  eexists. split; [exact He'|]. intros k Hlt.
  rewrite (Hk k Hlt). rewrite lookup_insert_ne by lia.
  rewrite (Hin' k Hlt). reflexivity.
Qed.

End Gradient.

(** The instance of C2 at the small example: the gradient of X = (4, 6)
    against A = (1, 2) is (3, 4). *)
Lemma Evaluate_gradient_is_difference_witness :
  well_formed_gradient example_functor example_memory 200 300 400 = true /\
  outside 300 400 (target_size example_functor) = true /\
  exists h',
    Evaluate example_functor example_memory 200 300 400 = Some (true, h') /\
    h' !! 400 = Some (of_Z 3) /\
    h' !! 401 = Some (of_Z 4).
Proof.
  split; [reflexivity|]. split; [reflexivity|].
  destruct (Evaluate_gradient_is_difference example_functor example_memory 200 300 400)
    as (h' & He & Hk & _); [reflexivity | reflexivity |].
  exists h'. split; [exact He|]. split.
  - exact (Hk 0%nat ltac:(vm_compute; lia)).
  - exact (Hk 1%nat ltac:(vm_compute; lia)).
Defined.

(** ** Success, purity and idempotence *)

Section Purity.
Context {F : Type} `{Scalar F}.
Implicit Types (h : gmap Z F) (this : MatrixDenoising).

Lemma load_block_insert_apart h p n a x :
  apart a 1 p n = true ->
  load_block (<[a := x]> h) p n = load_block h p n.
Proof.
  intros Hap. apply apart_spec in Hap. apply load_block_ext. intros k Hk.
  apply lookup_insert_ne. lia.
Qed.

Lemma allocated_insert h a x :
  allocated (<[a := x]> h) a 1 = true.
Proof. unfold allocated. simpl. rewrite lookup_insert_eq. reflexivity. Qed.

(** C3. A well-formed call of [Evaluate] succeeds and returns true, with and
    without a gradient request.  Without a gradient request it changes the
    cost cell only, the cost it writes is a function of the contents of A
    and of X alone (the same in any memory that holds the same A and the
    same X, wherever the buffers are), and, the cost cell being apart from
    the storage of A and of X, a second call at the same X writes the same
    cost and leaves the memory as the first call left it. *)
Theorem Evaluate_succeeds_pure_idempotent this h parameters cost :
  well_formed this h parameters cost = true ->
  exists v,
    Evaluate this h parameters cost NULL = Some (true, <[cost := v]> h) /\
    (forall gradient,
       well_formed_gradient this h parameters cost gradient = true ->
       exists h', Evaluate this h parameters cost gradient = Some (true, h')) /\
    (forall h2 parameters2 cost2,
       well_formed this h2 parameters2 cost2 = true ->
       deref h2 (A this) = deref h (A this) ->
       Map h2 parameters2 (ref_rows (A this)) (ref_cols (A this))
       = Map h parameters (ref_rows (A this)) (ref_cols (A this)) ->
       Evaluate this h2 parameters2 cost2 NULL = Some (true, <[cost2 := v]> h2)) /\
    (apart cost 1 (ref_data (A this)) (target_size this) = true ->
     apart cost 1 parameters (target_size this) = true ->
     Evaluate this (<[cost := v]> h) parameters cost NULL
     = Some (true, <[cost := v]> h)).
Proof.
  intros Hwf.
  destruct (well_formed_blocks _ _ _ _ Hwf) as (xs & zs & Hx & Ha & Hc).
  exists (cost_of xs zs). split; [|split; [|split]].
  - apply Evaluate_no_gradient; assumption.
  - intros gradient Hg.
    destruct (Evaluate_gradient_memory _ _ _ _ _ Hg) as (h1 & h' & He & _).
    eauto.
  - intros h2 p2 c2 Hwf2 HA HX.
    destruct (well_formed_blocks _ _ _ _ Hwf2) as (xs2 & zs2 & Hx2 & Ha2 & Hc2).
    unfold deref, Map in HA, HX. fold (target_size this) in HA, HX.
    rewrite Ha2, Ha in HA. rewrite Hx2, Hx in HX.
    injection HA as ->. injection HX as ->.
    apply Evaluate_no_gradient; assumption.
  - intros HapA HapX.
    rewrite (Evaluate_no_gradient this _ parameters cost xs zs).
    + rewrite insert_insert_eq. reflexivity.
    + rewrite load_block_insert_apart; assumption.
    + rewrite load_block_insert_apart; assumption.
    + apply allocated_insert.
Qed.

(** C9. On a well-formed call the cost written with a gradient request is the
    cost written without one: both branches of [Evaluate] compute one half
    of the Frobenius norm of X - A. *)
Theorem Evaluate_cost_same_with_gradient this h parameters cost gradient :
  well_formed_gradient this h parameters cost gradient = true ->
  exists v h1 h2,
    Evaluate this h parameters cost NULL = Some (true, h1) /\
    Evaluate this h parameters cost gradient = Some (true, h2) /\
    h1 !! cost = Some v /\
    h2 !! cost = Some v /\
    v = half_distance h parameters (ref_data (A this)) (target_size this).
Proof.
  intros Hwf.
  destruct (well_formed_gradient_blocks _ _ _ _ _ Hwf) as (Hwf0 & _ & _).
  destruct (Evaluate_gradient_memory _ _ _ _ _ Hwf) as (g1 & h2 & He & -> & _).
  destruct (well_formed_blocks _ _ _ _ Hwf0) as (xs & zs & Hx & Ha & Hc).
  eexists _, _, _. split; [|split; [exact He|]].
  - rewrite (Evaluate_no_gradient _ _ _ _ _ _ Hx Ha Hc).
    rewrite (cost_of_half_distance _ _ _ _ _ _ Hx Ha). reflexivity.
  - rewrite !lookup_insert_eq. auto.
Qed.

End Purity.

(** The instance of C3 at the small example. *)
Lemma Evaluate_succeeds_pure_idempotent_witness :
  well_formed example_functor example_memory 200 300 = true /\
  exists v,
    Evaluate example_functor example_memory 200 300 NULL
    = Some (true, <[300 := v]> example_memory) /\
    Evaluate example_functor (<[300 := v]> example_memory) 200 300 NULL
    = Some (true, <[300 := v]> example_memory).
Proof.
  split; [reflexivity|].
  destruct (Evaluate_succeeds_pure_idempotent example_functor example_memory 200 300)
    as (v & He & _ & _ & Hi); [reflexivity|].
  exists v. split; [exact He|]. apply Hi; reflexivity.
Defined.

(** The instance of C9 at the small example. *)
Lemma Evaluate_cost_same_with_gradient_witness :
  well_formed_gradient example_functor example_memory 200 300 400 = true /\
  exists v h1 h2,
    Evaluate example_functor example_memory 200 300 NULL = Some (true, h1) /\
    Evaluate example_functor example_memory 200 300 400 = Some (true, h2) /\
    h1 !! 300 = Some v /\
    h2 !! 300 = Some v /\
    v = half_distance example_memory 200 100 2.
Proof.
  split; [reflexivity|].
  apply (Evaluate_cost_same_with_gradient example_functor example_memory 200 300 400).
  reflexivity.
Defined.

(** ** The parameter count *)

Lemma to_int_small (z : Z) : - 2^31 <= z <= INT_MAX -> to_int z = z.
Proof.
  unfold to_int, INT_MAX. intros Hz.
  rewrite Z.mod_small by lia. lia.
Qed.

(** C4, as amended. When rows x cols fits in an [int] (it is at most
    2147483647), [NumParameters] reports exactly rows x cols. *)
Theorem NumParameters_is_rows_times_cols (this : MatrixDenoising) :
  0 <= ref_rows (A this) * ref_cols (A this) <= INT_MAX ->
  NumParameters this = ref_rows (A this) * ref_cols (A this).
Proof.
  intros Hs. unfold NumParameters. apply to_int_small. lia.
Qed.

(** The instance of C4 at the small example: 2 x 1 gives 2. *)
Lemma NumParameters_is_rows_times_cols_witness :
  0 <= 2 * 1 <= INT_MAX /\ NumParameters example_functor = 2 * 1.
Proof.
  split; [unfold INT_MAX; lia|].
  apply (NumParameters_is_rows_times_cols example_functor).
  unfold INT_MAX; simpl; lia.
Defined.

(** C4 fails as stated: for a 65536 x 32768 target the product, 2^31, does
    not fit in the [int] that [NumParameters] returns, and the count
    reported is -2^31. *)
Lemma NumParameters_large_matrix :
  NumParameters large_functor = -2147483648 /\
  NumParameters large_functor
  <> ref_rows (A large_functor) * ref_cols (A large_functor).
Proof. split; [reflexivity | discriminate]. Qed.

(** ** The frame of the functor *)

Section Frame.
Context {F : Type} `{Scalar F}.
Implicit Types (h : gmap Z F) (this : MatrixDenoising).

Lemma Map_assign_outside h p r c M h' a :
  Map_assign h p r c M = Some h' ->
  outside a p (size_of r c) = true -> h' !! a = h !! a.
Proof.
  unfold Map_assign.
  destruct ((rows M =? r) && (cols M =? c) && (length (coeffs M) =? size_of r c)%nat)
    eqn:E; [|discriminate].
  apply andb_true_iff in E as [_ E]. apply Nat.eqb_eq in E.
  intros Hs Ho. apply (store_block_outside _ _ _ _ _ Hs). rewrite E. exact Ho.
Qed.

Lemma Evaluate_returns_true this h parameters cost gradient b h' :
  Evaluate this h parameters cost gradient = Some (b, h') -> b = true.
Proof.
  unfold Evaluate.
  destruct (Map h parameters _ _); [|discriminate].
  destruct (gradient =? NULL).
  - destruct (costFrobenius _ _ _); [|discriminate].
    destruct (store _ _ _); [|discriminate]. congruence.
  - destruct (costGradientFrobenius _ _ _ _ _ _) as [[v h1]|]; [|discriminate].
    destruct (store _ _ _); [|discriminate]. congruence.
Qed.

(** [Evaluate] writes the cost cell and, on request, the gradient buffer,
    and nothing else. *)
Lemma Evaluate_frame this h parameters cost gradient b h' a :
  Evaluate this h parameters cost gradient = Some (b, h') ->
  supplied this (CallEvaluate (F := F) parameters cost gradient) a = false ->
  h' !! a = h !! a.
Proof.
  unfold Evaluate, supplied.
  destruct (Map h parameters _ _) as [P0|]; [|discriminate].
  rewrite orb_false_iff, Z.eqb_neq.
  destruct (gradient =? NULL) eqn:Eg; simpl.
  - destruct (costFrobenius _ _ _) as [v|]; [|discriminate].
    destruct (store h cost v) as [h1|] eqn:Es; [|discriminate].
    intros [= _ <-] [Hne _]. rewrite (store_lookup _ _ _ _ a Es).
    destruct (decide (a = cost)); [contradiction | reflexivity].
  - destruct (costGradientFrobenius _ _ _ _ _ _) as [[v h1]|] eqn:Ec; [|discriminate].
    destruct (store h1 cost v) as [h2|] eqn:Es; [|discriminate].
    intros [= _ <-] [Hne Ho]. apply negb_false_iff in Ho.
    rewrite (store_lookup _ _ _ _ a Es).
    destruct (decide (a = cost)); [contradiction|].
    unfold costGradientFrobenius in Ec.
    destruct (gradientFrobenius _ _ _) as [G|]; [|discriminate].
    destruct (Map_assign h gradient _ _ G) as [h3|] eqn:Em; [|discriminate].
    destruct (Map h3 gradient _ _); [|discriminate].
    injection Ec as _ <-.
    apply (Map_assign_outside _ _ _ _ _ _ _ Em). exact Ho.
Qed.

Lemma run_call_frame this h c h' a :
  run_call this h c = Some h' ->
  supplied this c a = false -> h' !! a = h !! a.
Proof.
  destruct c as [p cost g|X|X|]; simpl run_call.
  - destruct (Evaluate this h p cost g) as [[b h1]|] eqn:E; [|discriminate].
    intros [= <-]. apply (Evaluate_frame _ _ _ _ _ _ _ _ E).
  - destruct (costFrobenius this h X); [|discriminate]. intros [= <-]. reflexivity.
  - destruct (gradientFrobenius this h X); [|discriminate]. intros [= <-]. reflexivity.
  - intros [= <-]. reflexivity.
Qed.

Lemma run_calls_frame this (cs : list (call (F := F))) : forall h h' a,
  run_calls this h cs = Some h' ->
  forallb (fun c => negb (supplied this c a)) cs = true ->
  h' !! a = h !! a.
Proof.
  induction cs as [|c cs IH]; intros h h' a; simpl.
  - intros [= <-] _. reflexivity.
  - destruct (run_call this h c) as [h1|] eqn:E; [|discriminate].
    rewrite andb_true_iff, negb_true_iff. intros Hr [Hc Hcs].
    rewrite (IH _ _ _ Hr Hcs). apply (run_call_frame _ _ _ _ _ E Hc).
Qed.

Lemma untouched_not_supplied this (cs : list (call (F := F))) p n a :
  untouched this cs p n = true ->
  p <= a < p + Z.of_nat n ->
  forallb (fun c => negb (supplied this c a)) cs = true.
Proof.
  unfold untouched. rewrite !forallb_forall. intros Hu Ha c Hc.
  specialize (Hu c Hc). destruct c as [q cost g| | |]; try reflexivity.
  simpl. apply andb_true_iff in Hu as [Hcost Hg].
  apply apart_spec in Hcost.
  rewrite negb_orb, andb_true_iff, negb_true_iff, Z.eqb_neq. split; [lia|].
  destruct (g =? NULL); [reflexivity|]. simpl in *.
  apply apart_spec in Hg. rewrite negb_involutive. apply outside_spec. lia.
Qed.

(** C5. Whatever sequence of calls of [Evaluate], [costFrobenius],
    [gradientFrobenius] and [NumParameters] runs, every cell that is not in
    a cost or gradient buffer supplied to one of the calls keeps its value;
    in particular, when those buffers do not overlap the storage of A, the
    target matrix is unchanged. *)
Theorem functor_writes_supplied_buffers_only this (cs : list (call (F := F))) h h' :
  run_calls this h cs = Some h' ->
  (forall a, forallb (fun c => negb (supplied this c a)) cs = true ->
             h' !! a = h !! a) /\
  (untouched this cs (ref_data (A this)) (target_size this) = true ->
   deref h' (A this) = deref h (A this)).
Proof.
  intros Hr. split.
  - intros a. apply (run_calls_frame _ _ _ _ _ Hr).
  - intros Hu. unfold deref, Map. fold (target_size this).
    rewrite (load_block_ext h h'); [reflexivity|].
    intros k Hk. apply (run_calls_frame _ _ _ _ _ Hr).
    apply (untouched_not_supplied _ _ _ _ _ Hu). lia.
Qed.

End Frame.

(** The instance of C5 at the small example: after five calls the memory is
    defined and A is still (1, 2). *)
Lemma functor_writes_supplied_buffers_only_witness :
  exists h',
    run_calls example_functor example_memory example_calls = Some h' /\
    deref h' (A example_functor) = Some (mkMatrix 2 1 [of_Z 1; of_Z 2]).
Proof.
  destruct (run_calls example_functor example_memory example_calls) as [h'|] eqn:E.
  - exists h'. split; [reflexivity|].
    destruct (functor_writes_supplied_buffers_only example_functor example_calls
                example_memory h' E) as [_ Hd].
    rewrite Hd; reflexivity.
  - vm_compute in E. discriminate E.
Defined.

(** ** Facts of binary64 arithmetic *)

Section Binary64.
Implicit Types (x y d : double).

Lemma binary_round_aux_opp (s : bool) (m e : Z) (l : location) :
  SFopp (binary_round_aux 53 1024 s m e l)
  = binary_round_aux 53 1024 (negb s) m e l.
Proof.
  unfold binary_round_aux.
  destruct (shr_fexp 53 1024 m e l) as [mrs e1].
  destruct (shr_fexp 53 1024 _ e1 loc_Exact) as [mrs' e2].
  destruct (shr_m mrs') as [|q|q]; try reflexivity.
  destruct (e2 <=? 1024 - 53); reflexivity.
Qed.

Lemma binary_round_opp (s : bool) (m : positive) (e : Z) :
  SFopp (binary_round 53 1024 s m e) = binary_round 53 1024 (negb s) m e.
Proof.
  unfold binary_round. destruct (shl_align m e _) as [mz ez].
  apply binary_round_aux_opp.
Qed.

(** Rounding is symmetric: the rounded value of [-m] is the opposite of the
    rounded value of [m], except that an exact zero is [+0] on both sides. *)
Lemma binary_normalize_opp (m e : Z) :
  binary_normalize 53 1024 (- m) e false
  = match m with
    | Z0 => S754_zero false
    | _ => SFopp (binary_normalize 53 1024 m e false)
    end.
Proof.
  destruct m as [|q|q]; simpl; try reflexivity.
  - rewrite binary_round_opp. reflexivity.
  - rewrite binary_round_opp. reflexivity.
Qed.

Lemma cond_Zopp_negb (s : bool) (m : Z) : cond_Zopp (negb s) m = - cond_Zopp s m.
Proof. destruct s; simpl; lia. Qed.

(** The square of a double does not see its sign. *)
Lemma abs2_opp d : abs2 (fopp d) = abs2 d.
Proof.
  destruct d as [s|s| |s m e]; simpl; try reflexivity; destruct s; reflexivity.
Qed.

Lemma abs2_zero (s s' : bool) :
  abs2 (S754_zero s : double) = abs2 (S754_zero s' : double).
Proof. destruct s, s'; reflexivity. Qed.

Lemma fsub_finite (sx : bool) (mx : positive) (ex : Z)
    (sy : bool) (my : positive) (ey : Z) :
  fsub (S754_finite sx mx ex) (S754_finite sy my ey)
  = binary_normalize 53 1024
      (cond_Zopp sx (Z.pos (fst (shl_align mx ex (Z.min ex ey))))
       - cond_Zopp sy (Z.pos (fst (shl_align my ey (Z.min ex ey)))))
      (Z.min ex ey) false.
Proof. reflexivity. Qed.

(** Negating both operands of a subtraction negates the result, or both
    results are zeros. *)
Lemma fsub_opp_opp x y :
  fsub (fopp x) (fopp y) = fopp (fsub x y) \/
  exists s s', fsub (fopp x) (fopp y) = S754_zero s /\ fsub x y = S754_zero s'.
Proof.
  destruct x as [sx|sx| |sx mx ex], y as [sy|sy| |sy my ey];
    try (left; reflexivity);
    try (left; destruct sx; reflexivity);
    try (left; destruct sy; reflexivity);
    try (left; destruct sx, sy; reflexivity).
  - right. destruct sx, sy; simpl; eauto.
  - change (fopp (S754_finite sx mx ex)) with (S754_finite (negb sx) mx ex).
    change (fopp (S754_finite sy my ey)) with (S754_finite (negb sy) my ey).
    rewrite !fsub_finite, !cond_Zopp_negb.
    set (u := cond_Zopp sx _). set (v := cond_Zopp sy _).
    replace (- u - - v) with (- (u - v)) by lia.
    rewrite binary_normalize_opp.
    destruct (u - v) eqn:E.
    + right. exists false, false. split; reflexivity.
    + left. reflexivity.
    + left. reflexivity.
Qed.

Lemma abs2_fsub_opp x y : abs2 (fsub (fopp x) (fopp y)) = abs2 (fsub x y).
Proof.
  destruct (fsub_opp_opp x y) as [-> | (s & s' & -> & ->)].
  - apply abs2_opp.
  - apply abs2_zero.
Qed.

(** A number minus itself is [+0]. *)
Lemma fsub_diag x : is_finite x = true -> fsub x x = fzero.
Proof.
  destruct x as [s|s| |s m e]; simpl; try discriminate; intros _.
  - destruct s; reflexivity.
  - unfold SFsub. rewrite Z.sub_diag. reflexivity.
Qed.

Lemma cwise_fsub_diag (l : list double) :
  forallb is_finite l = true -> cwise fsub l l = repeat fzero (length l).
Proof.
  induction l as [|x l IH]; [reflexivity|].
  cbn [forallb length repeat cwise].
  rewrite andb_true_iff. intros [Hx Hl].
  rewrite (fsub_diag x Hx), (IH Hl). reflexivity.
Qed.

Lemma sum_abs2_zero (n : nat) :
  sum (map abs2 (repeat (fzero : double) n)) = fzero.
Proof.
  assert (E : forall k,
    fold_left fadd (map abs2 (repeat (fzero : double) k)) fzero = fzero).
  { induction k as [|k IH]; [reflexivity | exact IH]. }
  destruct n as [|n]; [reflexivity|]. exact (E n).
Qed.

Lemma cost_of_diag (l : list double) :
  forallb is_finite l = true -> cost_of l l = fzero.
Proof.
  intros Hl. unfold cost_of.
  rewrite (cwise_fsub_diag l Hl), sum_abs2_zero. reflexivity.
Qed.

Lemma cwise_fsub_opp (xs zs : list double) :
  map abs2 (cwise fsub (map fopp xs) (map fopp zs)) = map abs2 (cwise fsub xs zs).
Proof.
  revert zs. induction xs as [|x xs IH]; intros [|z zs]; try reflexivity.
  cbn [map cwise]. f_equal; [apply abs2_fsub_opp | apply IH].
Qed.

End Binary64.

(** ** The cost at the target and under negation, in binary64 *)

Section AtTarget.
Implicit Types (h : gmap Z double) (this : MatrixDenoising).

(** C6, as amended. When the entries of A are numbers (no infinity, no NaN),
    a well-formed call of [Evaluate] at X = A writes the cost 0 and fills
    the gradient buffer with zeros; A and X need not be square. *)
Theorem Evaluate_at_target_is_zero this h parameters cost gradient (a : MatrixXd) :
  well_formed_gradient this h parameters cost gradient = true ->
  outside cost gradient (target_size this) = true ->
  deref h (A this) = Some a ->
  Map h parameters (ref_rows (A this)) (ref_cols (A this)) = Some a ->
  forallb is_finite (coeffs a) = true ->
  exists h',
    Evaluate this h parameters cost gradient = Some (true, h') /\
    h' !! cost = Some fzero /\
    Map h' gradient (ref_rows (A this)) (ref_cols (A this))
    = Some (Zero (ref_rows (A this)) (ref_cols (A this))).
Proof.
  intros Hwf Ho HA HX Hfin.
  destruct (well_formed_gradient_blocks _ _ _ _ _ Hwf) as (Hwf0 & Hg & Hgb).
  destruct (well_formed_blocks _ _ _ _ Hwf0) as (xs & zs & Hx & Ha & Hc).
  unfold deref, Map in HA, HX. fold (target_size this) in HA, HX.
  rewrite Ha in HA. rewrite Hx in HX. injection HA as <-. injection HX as ->.
  simpl in Hfin.
  destruct (Evaluate_with_gradient _ _ _ _ _ _ _ Hx Ha Hc Hg Hgb) as (h1 & Hs & He).
  rewrite (cost_of_diag zs Hfin) in He.
  rewrite (cwise_fsub_diag zs Hfin) in Hs.
  pose proof (load_block_length _ _ _ _ Ha) as La.
  exists (<[cost := fzero]> h1). split; [exact He|]. split.
  - apply lookup_insert_eq.
  - unfold Map, Zero. fold (target_size this).
    rewrite load_block_insert_apart.
    + apply store_block_load in Hs. rewrite repeat_length, La in Hs.
      rewrite Hs. reflexivity.
    + apply apart_spec. apply outside_spec in Ho. lia.
Qed.

(** C7. The cost does not change when the candidate and the target are
    both negated: [costFrobenius] gives for -X, in a memory that holds -A,
    what it gives for X in a memory that holds A. *)
Theorem costFrobenius_negation this h h' (X a : MatrixXd) :
  deref h (A this) = Some a ->
  deref h' (A this) = Some (negate a) ->
  costFrobenius this h' (negate X) = costFrobenius this h X.
Proof.
  intros Ha Hn. unfold costFrobenius. rewrite Ha, Hn.
  unfold mat_sub, negate, cmap. cbn [rows cols coeffs].
  destruct ((rows X =? rows a) && (cols X =? cols a)); [|reflexivity].
  unfold norm, squaredNorm. cbn [coeffs].
  rewrite cwise_fsub_opp. reflexivity.
Qed.

End AtTarget.

(** The instance of C6 at the small example with X = A = (1, 2). *)
Lemma Evaluate_at_target_is_zero_witness :
  exists h',
    Evaluate example_functor equal_memory 200 300 400 = Some (true, h') /\
    h' !! 300 = Some (of_Z 0) /\
    Map h' 400 2 1 = Some (mkMatrix 2 1 [of_Z 0; of_Z 0]).
Proof.
  apply (Evaluate_at_target_is_zero example_functor equal_memory 200 300 400
           (mkMatrix 2 1 [of_Z 1; of_Z 2])); reflexivity.
Defined.

(** C6 fails as stated: at X = A = (+infinity), a 1 x 1 matrix, the
    difference is NaN, and so are the cost and the gradient. *)
Lemma Evaluate_at_infinite_target :
  let h := unit_memory (S754_infinity false) (S754_infinity false) in
  well_formed_gradient unit_functor h 200 300 400 = true /\
  Map h 200 1 1 = deref h (A unit_functor) /\
  exists h',
    Evaluate unit_functor h 200 300 400 = Some (true, h') /\
    h' !! 300 = Some S754_nan /\
    h' !! 400 = Some S754_nan /\
    h' !! 300 <> Some fzero.
Proof.
  split; [reflexivity|]. split; [reflexivity|].
  eexists. split; [vm_compute; reflexivity|].
  split; [reflexivity|]. split; [reflexivity|]. discriminate.
Qed.

(** The instance of C7 at the small example: X = (4, 6) against A = (1, 2),
    and (-4, -6) against (-1, -2); both costs are 2.5. *)
Lemma costFrobenius_negation_witness :
  costFrobenius example_functor negated_memory (negate (mkMatrix 2 1 [of_Z 4; of_Z 6]))
  = costFrobenius example_functor example_memory (mkMatrix 2 1 [of_Z 4; of_Z 6]) /\
  costFrobenius example_functor example_memory (mkMatrix 2 1 [of_Z 4; of_Z 6])
  = Some (of_Z_exp 5 (-1)).
Proof.
  split; [|reflexivity].
  apply (costFrobenius_negation example_functor example_memory negated_memory
           (mkMatrix 2 1 [of_Z 4; of_Z 6]) (mkMatrix 2 1 [of_Z 1; of_Z 2]));
    reflexivity.
Defined.

(** ** Homogeneity of the cost *)

(** C10 fails as stated in the arithmetic of the code.  With c = 2^-600,
    X = (2^600) and A = (0), the square of 2^600 overflows: the cost of
    (X, A) is infinite, and so is |c| times it, while the cost of
    (c X, c A) = ((1), (0)) is 0.5.  Without any overflow, with c = 3,
    X = (3) and A = (0.7), the two sides differ by a rounding error. *)
Lemma costFrobenius_not_homogeneous_binary64 :
  (let c := of_Z_exp 1 (-600) in
   let x := of_Z_exp 1 600 in
   let a := of_Z 0 in
   costFrobenius unit_functor (unit_memory (fmul c a) fzero) (scale c (unit_matrix x))
   = Some fhalf /\
   option_map (fmul (fabs c))
     (costFrobenius unit_functor (unit_memory a fzero) (unit_matrix x))
   = Some (S754_infinity false)) /\
  (let c := of_Z 3 in
   let x := of_Z 3 in
   let a := SFdiv 53 1024 (of_Z 7) (of_Z 10) in
   costFrobenius unit_functor (unit_memory (fmul c a) fzero) (scale c (unit_matrix x))
   <> option_map (fmul (fabs c))
        (costFrobenius unit_functor (unit_memory a fzero) (unit_matrix x))).
Proof.
  split; [split; reflexivity|].
  vm_compute. discriminate.
Qed.

(** ** The solver driver *)

Section DriverFacts.
Context {Other GradientProblem Summary : Type}.
Variable Solve :
  ceres.Options Other -> GradientProblem -> gmap Z double -> Z ->
  Summary * gmap Z double.
Variable defaults : ceres.Options Other.

(** The literal [1e-8] is a double, and no double is nearer to 10^-8. *)
Lemma lit_1e_8_nearest :
  valid_binary 53 1024 lit_1e_8 = true /\
  nearest_to_inverse lit_1e_8 (10 ^ 8) = true.
Proof. split; reflexivity. Qed.

(** C8. The driver hands to the solver options with at most 200
    iterations, function tolerance 1e-8, gradient tolerance 1e-8, the L-BFGS
    search direction, the Wolfe line search and progress logged at every
    iteration to the standard output; every other option keeps its default.
    The options are the same for every problem and every starting point,
    and the solver receives them once, for the whole run. *)
Theorem solveGradientProblem_options :
  exists options : ceres.Options Other,
    ceres.max_num_iterations options = 200 /\
    ceres.function_tolerance options = lit_1e_8 /\
    ceres.gradient_tolerance options = lit_1e_8 /\
    nearest_to_inverse (ceres.function_tolerance options) (10 ^ 8) = true /\
    nearest_to_inverse (ceres.gradient_tolerance options) (10 ^ 8) = true /\
    ceres.line_search_direction_type options = ceres.LBFGS /\
    ceres.line_search_type options = ceres.WOLFE /\
    ceres.logging_type options = ceres.PER_MINIMIZER_ITERATION /\
    ceres.minimizer_progress_to_stdout options = true /\
    ceres.other options = ceres.other defaults /\
    forall (gradientProblem : GradientProblem) (h : gmap Z double)
           (solution : MatrixRef),
      solveGradientProblem Solve defaults gradientProblem h solution
      = Solve options gradientProblem h (ref_data solution).
Proof.
  exists (driver_options defaults).
  repeat split; reflexivity.
Qed.

End DriverFacts.

(** ** When [Evaluate] is defined *)

Section Definedness.
Context {F : Type} `{Scalar F}.
Implicit Types (h : gmap Z F) (l : list F) (this : MatrixDenoising).

Lemma store_block_Some_allocated h p l h' :
  store_block h p l = Some h' -> allocated h p (length l) = true.
Proof.
  revert h p. induction l as [|x l IH]; intros h p; [reflexivity|].
  cbn [store_block length].
  destruct (store h p x) as [h1|] eqn:E; [|discriminate].
  intros Hs. apply allocated_lookup. intros [|k] Hk.
  - rewrite Z.add_0_r. unfold store in E. destruct (h !! p); [eauto | discriminate].
  - apply (store_is_Some _ _ _ _ _ E).
    replace (p + Z.of_nat (S k)) with (p + 1 + Z.of_nat k) by lia.
    apply (proj1 (allocated_lookup _ _ _) (IH _ _ Hs)). lia.
Qed.

Lemma store_Some_allocated h p x h' :
  store h p x = Some h' -> allocated h p 1 = true.
Proof.
  unfold store, allocated. simpl. destruct (h !! p); [reflexivity | discriminate].
Qed.

Lemma allocated_store_block h p l h' q n :
  store_block h p l = Some h' -> allocated h' q n = allocated h q n.
Proof.
  intros Hs. apply eq_true_iff_eq. rewrite !allocated_lookup.
  split; intros Hk k Hlt; apply (store_block_is_Some _ _ _ _ _ Hs); auto.
Qed.

(** What a defined call of [Evaluate] has read and written. *)
Lemma Evaluate_inversion this h parameters cost gradient b h' :
  Evaluate this h parameters cost gradient = Some (b, h') ->
  exists xs zs,
    load_block h parameters (target_size this) = Some xs /\
    load_block h (ref_data (A this)) (target_size this) = Some zs /\
    allocated h cost 1 = true /\
    (gradient <> NULL -> allocated h gradient (target_size this) = true) /\
    h' !! cost = Some (cost_of xs zs).
Proof.
  unfold Evaluate, Map. fold (target_size this).
  destruct (load_block h parameters (target_size this)) as [xs|] eqn:Hx;
    [|discriminate].
  destruct (load_block h (ref_data (A this)) (target_size this)) as [zs|] eqn:Ha.
  - pose proof (load_block_length _ _ _ _ Hx) as Lx.
    pose proof (load_block_length _ _ _ _ Ha) as La.
    assert (Ld : length (cwise fsub xs zs) = target_size this).
    { rewrite cwise_length; lia. }
    destruct (gradient =? NULL) eqn:Eg.
    + rewrite (costFrobenius_blocks _ _ _ _ Ha).
      destruct (store h cost (cost_of xs zs)) as [h1|] eqn:Es; [|discriminate].
      intros [= _ <-]. exists xs, zs. repeat split.
      * eapply store_Some_allocated; eauto.
      * apply Z.eqb_eq in Eg. congruence.
      * rewrite (store_lookup _ _ _ _ cost Es).
        destruct (decide (cost = cost)); [reflexivity | congruence].
    + unfold costGradientFrobenius.
      rewrite (gradientFrobenius_blocks _ _ _ _ Ha).
      unfold Map_assign. cbn [rows cols coeffs].
      rewrite !Z.eqb_refl. fold (target_size this).
      rewrite Ld, Nat.eqb_refl. cbn [andb].
      destruct (store_block h gradient (cwise fsub xs zs)) as [h1|] eqn:Hs;
        [|discriminate].
      unfold Map. fold (target_size this).
      rewrite <- Ld at 1. rewrite (store_block_load _ _ _ _ Hs).
      unfold norm, squaredNorm. cbn [coeffs]. fold (cost_of xs zs).
      destruct (store h1 cost (cost_of xs zs)) as [h2|] eqn:Es; [|discriminate].
      intros [= _ <-]. exists xs, zs. repeat split.
      * rewrite <- (allocated_store_block _ _ _ _ cost 1%nat Hs).
        eapply store_Some_allocated; eauto.
      * intros _. rewrite <- Ld. eapply store_block_Some_allocated; eauto.
      * rewrite (store_lookup _ _ _ _ cost Es).
        destruct (decide (cost = cost)); [reflexivity | congruence].
  - destruct (gradient =? NULL).
    + unfold costFrobenius, deref, Map. fold (target_size this). rewrite Ha.
      discriminate.
    + unfold costGradientFrobenius, gradientFrobenius, deref, Map.
      fold (target_size this). rewrite Ha. discriminate.
Qed.

(** X1. [Evaluate] is defined exactly on the well-formed calls: it reads the
    rows x cols cells of the parameter buffer and of A, writes the cost
    cell, and, when the gradient pointer is not null, the rows x cols cells
    of the gradient buffer; a call is undefined as soon as one of these
    cells is not allocated. *)
Theorem Evaluate_defined_iff_well_formed this h parameters cost gradient :
  is_Some (Evaluate this h parameters cost gradient) <->
  (if gradient =? NULL
   then well_formed this h parameters cost
   else well_formed_gradient this h parameters cost gradient) = true.
Proof.
  split.
  - intros [[b h'] He].
    destruct (Evaluate_inversion _ _ _ _ _ _ _ He) as (xs & zs & Hx & Ha & Hc & Hg & _).
    assert (Hwf : well_formed this h parameters cost = true).
    { unfold well_formed, allocated at 1 2. rewrite Hx, Ha, Hc. reflexivity. }
    destruct (gradient =? NULL) eqn:Eg; [exact Hwf|].
    unfold well_formed_gradient. rewrite Hwf, Eg.
    apply Z.eqb_neq in Eg. rewrite (Hg Eg). reflexivity.
  - destruct (gradient =? NULL) eqn:Eg; intros Hwf.
    + apply Z.eqb_eq in Eg. subst gradient.
      destruct (well_formed_blocks _ _ _ _ Hwf) as (xs & zs & Hx & Ha & Hc).
      rewrite (Evaluate_no_gradient _ _ _ _ _ _ Hx Ha Hc). eauto.
    + destruct (Evaluate_gradient_memory _ _ _ _ _ Hwf) as (h1 & h' & He & _).
      rewrite He. eauto.
Qed.

(** X2. A target without coefficients (no rows or no columns): [Evaluate]
    reads no cell of the parameter buffer and writes no cell of the gradient
    buffer, whatever the two pointers are, and the cost it writes is half
    the square root of [Scalar(0)]. *)
Theorem Evaluate_empty_target this h parameters cost gradient :
  ref_rows (A this) = 0 \/ ref_cols (A this) = 0 ->
  allocated h cost 1 = true ->
  Evaluate this h parameters cost gradient
  = Some (true, <[cost := fmul fhalf (fsqrt fzero)]> h).
Proof.
  intros Hz Hc.
  assert (Hn : size_of (ref_rows (A this)) (ref_cols (A this)) = 0%nat).
  { unfold size_of. destruct Hz as [-> | ->]; f_equal; lia. }
  assert (Hx : forall p, load_block h p (target_size this) = Some []).
  { intros p. unfold target_size. rewrite Hn. reflexivity. }
  assert (Hd : cost_of [] [] = fmul fhalf (fsqrt fzero)) by reflexivity.
  destruct (gradient =? NULL) eqn:Eg.
  - apply Z.eqb_eq in Eg. subst gradient.
    rewrite (Evaluate_no_gradient _ _ _ _ _ _ (Hx parameters) (Hx _) Hc).
    rewrite Hd. reflexivity.
  - unfold Evaluate, Map. fold (target_size this). rewrite (Hx parameters), Eg.
    unfold costGradientFrobenius.
    rewrite (gradientFrobenius_blocks _ _ _ _ (Hx _)).
    unfold Map_assign. cbn [rows cols coeffs cwise length].
    rewrite !Z.eqb_refl, Hn. cbn [Nat.eqb andb store_block].
    unfold Map. fold (target_size this). rewrite (Hx gradient).
    unfold norm, squaredNorm. cbn [coeffs].
    rewrite (store_allocated _ _ _ Hc). reflexivity.
Qed.

End Definedness.

(** The instance of X2: an empty target, a null parameter pointer and a
    gradient pointer to no allocated cell; the cost written is +0. *)
Lemma Evaluate_empty_target_witness :
  Evaluate empty_functor example_memory NULL 300 999
  = Some (true, <[300 := fmul fhalf (fsqrt fzero)]> example_memory) /\
  fmul fhalf (fsqrt fzero) = (fzero : double).
Proof.
  split; [|reflexivity].
  apply (Evaluate_empty_target empty_functor example_memory NULL 300 999).
  - left. reflexivity.
  - reflexivity.
Defined.

(** ** Sign and finiteness of the cost, in binary64 *)

Section Binary64Cost.
Implicit Types (x y d : double) (l xs zs : list double)
  (h : gmap Z double) (this : MatrixDenoising).

Lemma binary_round_aux_not_negative (m e : Z) (lc : location) :
  not_negative (binary_round_aux 53 1024 false m e lc) = true.
Proof.
  unfold binary_round_aux.
  destruct (shr_fexp 53 1024 m e lc) as [mrs e1].
  destruct (shr_fexp 53 1024 _ e1 loc_Exact) as [mrs' e2].
  destruct (shr_m mrs') as [|q|q]; try reflexivity.
  destruct (e2 <=? 1024 - 53); reflexivity.
Qed.

Lemma binary_round_not_negative (m : positive) (e : Z) :
  not_negative (binary_round 53 1024 false m e) = true.
Proof.
  unfold binary_round. destruct (shl_align m e _) as [mz ez].
  apply binary_round_aux_not_negative.
Qed.

Lemma abs2_finite (s : bool) (m : positive) (e : Z) :
  abs2 (S754_finite s m e : double)
  = binary_round_aux 53 1024 (xorb s s) (Z.pos (m * m)) (e + e) loc_Exact.
Proof. reflexivity. Qed.

Lemma abs2_not_negative d : not_negative (abs2 d) = true.
Proof.
  destruct d as [s|s| |s m e]; try reflexivity; try (destruct s; reflexivity).
  rewrite abs2_finite. destruct s; apply binary_round_aux_not_negative.
Qed.

Lemma fadd_positive (mx : positive) (ex : Z) (my : positive) (ey : Z) :
  fadd (S754_finite false mx ex) (S754_finite false my ey)
  = binary_round 53 1024 false
      (fst (shl_align mx ex (Z.min ex ey)) + fst (shl_align my ey (Z.min ex ey)))
      (Z.min ex ey).
Proof. reflexivity. Qed.

Lemma fadd_not_negative x y :
  not_negative x = true -> not_negative y = true ->
  not_negative (fadd x y) = true.
Proof.
  destruct x as [sx|sx| |sx mx ex], y as [sy|sy| |sy my ey];
    cbn [not_negative];
    try (intros _ _; reflexivity);
    try (destruct sx; try discriminate; intros _ _; reflexivity);
    try (destruct sy; try discriminate; intros _ _; reflexivity);
    try (destruct sx, sy; try discriminate; intros _ _; reflexivity).
  destruct sx, sy; try discriminate. intros _ _.
  rewrite fadd_positive. apply binary_round_not_negative.
Qed.

Lemma fsqrt_not_negative x :
  not_negative x = true -> not_negative (fsqrt x) = true.
Proof.
  destruct x as [s|s| |s m e]; cbn [not_negative];
    try (destruct s; try discriminate; intros _; reflexivity);
    try (intros _; reflexivity).
  destruct s; try discriminate. intros _.
  cbn [fsqrt binary64 SFsqrt].
  destruct (SFsqrt_core_binary 53 1024 (Z.pos m) e) as [[mz ez] lz].
  apply binary_round_aux_not_negative.
Qed.

Lemma fhalf_mul_not_negative x :
  not_negative x = true -> not_negative (fmul fhalf x) = true.
Proof.
  destruct x as [s|s| |s m e]; cbn [not_negative];
    try (destruct s; try discriminate; intros _; reflexivity);
    try (intros _; reflexivity).
  destruct s; try discriminate. intros _.
  apply binary_round_aux_not_negative.
Qed.

Lemma fold_left_fadd_not_negative l (a : double) :
  not_negative a = true -> forallb not_negative l = true ->
  not_negative (fold_left fadd l a) = true.
Proof.
  revert a. induction l as [|x l IH]; intros a Ha; cbn [forallb fold_left].
  - intros _. exact Ha.
  - rewrite andb_true_iff. intros [Hx Hl].
    apply IH; [apply fadd_not_negative; assumption | exact Hl].
Qed.

Lemma squares_not_negative l : forallb not_negative (map abs2 l) = true.
Proof.
  induction l as [|x l IH]; [reflexivity|]. cbn [map forallb].
  rewrite abs2_not_negative. exact IH.
Qed.

Lemma cost_of_not_negative xs zs : not_negative (cost_of xs zs) = true.
Proof.
  unfold cost_of. apply fhalf_mul_not_negative, fsqrt_not_negative.
  pose proof (squares_not_negative (cwise fsub xs zs)) as Hs.
  destruct (map abs2 (cwise fsub xs zs)) as [|q qs]; [reflexivity|].
  cbn [forallb] in Hs. apply andb_true_iff in Hs as [Hq Hqs].
  cbn [sum]. apply fold_left_fadd_not_negative; assumption.
Qed.

(** X3. The cost is never negative: whatever doubles the buffers hold
    (infinities and NaN included), a defined call of [Evaluate], with or
    without a gradient request, writes a cost that is NaN or has its sign
    bit clear. *)
Theorem Evaluate_cost_not_negative this h parameters cost gradient b h' :
  Evaluate this h parameters cost gradient = Some (b, h') ->
  exists v, h' !! cost = Some v /\ not_negative v = true.
Proof.
  intros He.
  destruct (Evaluate_inversion _ _ _ _ _ _ _ He) as (xs & zs & _ & _ & _ & _ & Hv).
  exists (cost_of xs zs). split; [exact Hv | apply cost_of_not_negative].
Qed.

(** Subtracting in the other order negates the result, or both results are
    zeros. *)
Lemma fsub_swap x y :
  fsub y x = fopp (fsub x y) \/
  exists s s', fsub y x = S754_zero s /\ fsub x y = S754_zero s'.
Proof.
  destruct x as [sx|sx| |sx mx ex], y as [sy|sy| |sy my ey];
    try (left; reflexivity);
    try (left; destruct sx; reflexivity);
    try (left; destruct sy; reflexivity);
    try (left; destruct sx, sy; reflexivity).
  - right. destruct sx, sy; simpl; eauto.
  - rewrite !fsub_finite. rewrite (Z.min_comm ey ex).
    set (u := cond_Zopp sx _). set (v := cond_Zopp sy _).
    replace (v - u) with (- (u - v)) by lia.
    rewrite binary_normalize_opp.
    destruct (u - v) eqn:E.
    + right. exists false, false. split; reflexivity.
    + left. reflexivity.
    + left. reflexivity.
Qed.

Lemma abs2_fsub_swap x y : abs2 (fsub y x) = abs2 (fsub x y).
Proof.
  destruct (fsub_swap x y) as [-> | (s & s' & -> & ->)].
  - apply abs2_opp.
  - apply abs2_zero.
Qed.

Lemma cwise_fsub_swap xs zs :
  map abs2 (cwise fsub zs xs) = map abs2 (cwise fsub xs zs).
Proof.
  revert zs. induction xs as [|x xs IH]; intros [|z zs]; try reflexivity.
  cbn [map cwise]. f_equal; [apply abs2_fsub_swap | apply IH].
Qed.

(** X4. The cost is symmetric in its two matrices: [costFrobenius] gives for
    the candidate A, on a functor whose target is X, what it gives for the
    candidate X on a functor whose target is A, for all doubles and all
    dimensions; when the dimensions of X and A differ, both calls fail. *)
Theorem costFrobenius_symmetric this this' h h' (X a : MatrixXd) :
  deref h (A this) = Some a ->
  deref h' (A this') = Some X ->
  costFrobenius this' h' a = costFrobenius this h X /\
  ((rows X =? rows a) && (cols X =? cols a) = false ->
   costFrobenius this h X = None /\ costFrobenius this' h' a = None).
Proof.
  intros Ha HX. unfold costFrobenius. rewrite Ha, HX. unfold mat_sub.
  rewrite (Z.eqb_sym (rows a)), (Z.eqb_sym (cols a)).
  destruct ((rows X =? rows a) && (cols X =? cols a)) eqn:E.
  - split; [|discriminate].
    unfold norm, squaredNorm. cbn [coeffs]. rewrite cwise_fsub_swap. reflexivity.
  - split; [reflexivity|]. intros _. split; reflexivity.
Qed.

End Binary64Cost.

(** The instance of X3 at the small example, with a gradient request. *)
Lemma Evaluate_cost_not_negative_witness :
  exists b h' v,
    Evaluate example_functor example_memory 200 300 400 = Some (b, h') /\
    h' !! 300 = Some v /\ not_negative v = true.
Proof.
  destruct (Evaluate example_functor example_memory 200 300 400)
    as [[b h']|] eqn:E.
  - destruct (Evaluate_cost_not_negative example_functor example_memory
                200 300 400 b h' E) as (v & Hv & Hn).
    exists b, h', v. auto.
  - vm_compute in E. discriminate E.
Defined.

(** The instances of X4: the cost of (1, 2) against the target (4, 6) is the
    cost of (4, 6) against the target (1, 2); and the 2 x 1 matrix (4, 6)
    against the 1 x 1 target (1) fails, as does (1) against (4, 6). *)
Lemma costFrobenius_symmetric_witness :
  costFrobenius example_functor swapped_memory (mkMatrix 2 1 [of_Z 1; of_Z 2])
  = costFrobenius example_functor example_memory (mkMatrix 2 1 [of_Z 4; of_Z 6]) /\
  (costFrobenius unit_functor example_memory (mkMatrix 2 1 [of_Z 4; of_Z 6]) = None /\
   costFrobenius example_functor swapped_memory (mkMatrix 1 1 [of_Z 1]) = None).
Proof.
  split.
  - apply (costFrobenius_symmetric example_functor example_functor
             example_memory swapped_memory
             (mkMatrix 2 1 [of_Z 4; of_Z 6]) (mkMatrix 2 1 [of_Z 1; of_Z 2]));
      reflexivity.
  - apply (costFrobenius_symmetric unit_functor example_functor
             example_memory swapped_memory
             (mkMatrix 2 1 [of_Z 4; of_Z 6]) (mkMatrix 1 1 [of_Z 1]));
      reflexivity.
Defined.

Section Binary64Finite.
Implicit Types (x y d : double) (l xs zs : list double)
  (h : gmap Z double) (this : MatrixDenoising).

Lemma fsub_finite_inv x y :
  is_finite (fsub x y) = true -> is_finite x = true /\ is_finite y = true.
Proof.
  destruct x as [sx|sx| |sx mx ex], y as [sy|sy| |sy my ey];
    try (intros _; split; reflexivity);
    try discriminate;
    try (destruct sx; discriminate);
    try (destruct sy; discriminate);
    try (destruct sx, sy; discriminate).
Qed.

Lemma fadd_finite_inv x y :
  is_finite (fadd x y) = true -> is_finite x = true /\ is_finite y = true.
Proof.
  destruct x as [sx|sx| |sx mx ex], y as [sy|sy| |sy my ey];
    try (intros _; split; reflexivity);
    try discriminate;
    try (destruct sx; discriminate);
    try (destruct sy; discriminate);
    try (destruct sx, sy; discriminate).
Qed.

Lemma abs2_finite_inv d : is_finite (abs2 d) = true -> is_finite d = true.
Proof.
  destruct d as [s|s| |s m e]; try reflexivity; try discriminate;
    destruct s; discriminate.
Qed.

Lemma fsqrt_finite_inv x : is_finite (fsqrt x) = true -> is_finite x = true.
Proof.
  destruct x as [s|s| |s m e]; try reflexivity; try discriminate;
    destruct s; discriminate.
Qed.

Lemma fhalf_mul_finite_inv x :
  is_finite (fmul fhalf x) = true -> is_finite x = true.
Proof.
  destruct x as [s|s| |s m e]; try reflexivity; try discriminate;
    destruct s; discriminate.
Qed.

Lemma fold_left_fadd_finite_inv l (a : double) :
  is_finite (fold_left fadd l a) = true ->
  is_finite a = true /\ forallb is_finite l = true.
Proof.
  revert a. induction l as [|x l IH]; intros a; cbn [fold_left forallb].
  - intros Ha. split; [exact Ha | reflexivity].
  - intros Hf. destruct (IH _ Hf) as [Hax Hl].
    destruct (fadd_finite_inv _ _ Hax) as [Ha Hx].
    rewrite Hx, Hl. split; [exact Ha | reflexivity].
Qed.

Lemma sum_finite_inv l :
  is_finite (sum l) = true -> forallb is_finite l = true.
Proof.
  destruct l as [|x l]; [reflexivity|]. cbn [sum forallb]. intros Hf.
  destruct (fold_left_fadd_finite_inv _ _ Hf) as [-> ->]. reflexivity.
Qed.

Lemma squared_differences_finite_inv xs zs :
  length xs = length zs ->
  forallb is_finite (map abs2 (cwise fsub xs zs)) = true ->
  forallb is_finite xs = true /\ forallb is_finite zs = true.
Proof.
  revert zs. induction xs as [|x xs IH]; intros [|z zs]; cbn [length];
    try discriminate.
  - intros _ _. split; reflexivity.
  - intros [= Hl]. cbn [cwise map forallb]. rewrite andb_true_iff.
    intros [Hd Hr]. destruct (IH _ Hl Hr) as [-> ->].
    destruct (fsub_finite_inv _ _ (abs2_finite_inv _ Hd)) as [-> ->].
    split; reflexivity.
Qed.

Lemma cost_of_finite_inv xs zs :
  length xs = length zs ->
  is_finite (cost_of xs zs) = true ->
  forallb is_finite xs = true /\ forallb is_finite zs = true.
Proof.
  intros Hl Hf. unfold cost_of in Hf.
  apply squared_differences_finite_inv; [exact Hl|].
  apply sum_finite_inv, fsqrt_finite_inv, fhalf_mul_finite_inv. exact Hf.
Qed.

Lemma forallb_lookup (P : double -> bool) l k x :
  forallb P l = true -> l !! k = Some x -> P x = true.
Proof.
  revert k. induction l as [|y l IH]; intros [|k]; cbn [forallb];
    try discriminate; rewrite andb_true_iff; intros [Hy Hl].
  - intros [= <-]. exact Hy.
  - apply IH. exact Hl.
Qed.

(** X5. Infinities and NaN are not checked, they propagate: when a defined
    call of [Evaluate] writes a finite cost, every entry of the parameter
    buffer and of A is finite; so an infinity or a NaN anywhere in X or in A
    makes the cost an infinity or NaN. *)
Theorem Evaluate_finite_cost_finite_entries this h parameters cost gradient b h' v :
  Evaluate this h parameters cost gradient = Some (b, h') ->
  h' !! cost = Some v ->
  is_finite v = true ->
  forall k, (k < target_size this)%nat ->
    is_finite (cell h parameters k) = true /\
    is_finite (cell h (ref_data (A this)) k) = true.
Proof.
  intros He Hv Hf k Hk.
  destruct (Evaluate_inversion _ _ _ _ _ _ _ He) as (xs & zs & Hx & Ha & _ & _ & Hc).
  rewrite Hc in Hv. injection Hv as <-.
  pose proof (load_block_length _ _ _ _ Hx) as Lx.
  pose proof (load_block_length _ _ _ _ Ha) as La.
  destruct (cost_of_finite_inv xs zs ltac:(lia) Hf) as [Fx Fz].
  split.
  - apply (forallb_lookup _ _ k _ Fx). apply (load_block_cells _ _ _ _ Hx). exact Hk.
  - apply (forallb_lookup _ _ k _ Fz). apply (load_block_cells _ _ _ _ Ha). exact Hk.
Qed.

End Binary64Finite.

(** The instance of X5 at the small example: the cost 2.5 is finite, and so
    are the four entries. *)
Lemma Evaluate_finite_cost_finite_entries_witness :
  (is_finite (cell example_memory 200 0) = true /\
   is_finite (cell example_memory 100 0) = true) /\
  (is_finite (cell example_memory 200 1) = true /\
   is_finite (cell example_memory 100 1) = true).
Proof.
  destruct (Evaluate example_functor example_memory 200 300 NULL)
    as [[b h']|] eqn:E.
  - destruct (h' !! 300) as [v|] eqn:Ev.
    + assert (Hf : is_finite v = true).
      { vm_compute in E. injection E as _ <-. vm_compute in Ev.
        injection Ev as <-. reflexivity. }
      pose proof (Evaluate_finite_cost_finite_entries example_functor
                    example_memory 200 300 NULL b h' v E Ev Hf) as Hk.
      split; [apply (Hk 0%nat) | apply (Hk 1%nat)]; vm_compute; lia.
    + vm_compute in E. injection E as _ <-. vm_compute in Ev. discriminate Ev.
  - vm_compute in E. discriminate E.
Defined.

(** ** The cost and the gradient that one call writes *)

Section CostOfGradient.
Context {F : Type} `{Scalar F}.
Implicit Types (h : gmap Z F) (l : list F) (this : MatrixDenoising).

(** X7. The two outputs of one call agree: after a well-formed call with a
    gradient request (the cost cell is not one of the cells of the gradient
    buffer), the cost cell holds one half of the Frobenius norm of the
    matrix that the gradient buffer now holds. *)
Theorem Evaluate_cost_is_half_norm_of_gradient this h parameters cost gradient :
  well_formed_gradient this h parameters cost gradient = true ->
  outside cost gradient (target_size this) = true ->
  exists h',
    Evaluate this h parameters cost gradient = Some (true, h') /\
    h' !! cost
    = Some (fmul fhalf (frobenius_norm (cell h' gradient) (target_size this))).
Proof.
  intros Hwf Ho. apply outside_spec in Ho.
  destruct (Evaluate_gradient_memory _ _ _ _ _ Hwf) as (h1 & h' & He & -> & Hin & _).
  eexists. split; [exact He|]. rewrite lookup_insert_eq. f_equal.
  unfold half_distance, frobenius_norm. do 2 f_equal.
  apply entry_sum_ext. intros k Hk.
  assert (Hc : cell (<[cost := half_distance h parameters (ref_data (A this))
                                 (target_size this)]> h1) gradient k
               = difference h parameters (ref_data (A this)) k).
  { unfold cell at 1. rewrite lookup_insert_ne by lia.
    rewrite (Hin k Hk). reflexivity. }
  unfold half_distance, frobenius_norm in Hc. rewrite Hc. reflexivity.
Qed.

Lemma allocated_insert_mono h q n a x :
  allocated h q n = true -> allocated (<[a := x]> h) q n = true.
Proof.
  rewrite !allocated_lookup. intros Hk k Hlt.
  destruct (decide (a = q + Z.of_nat k)) as [->|Hne].
  - rewrite lookup_insert_eq. eauto.
  - rewrite lookup_insert_ne by exact Hne. auto.
Qed.

(** X8. A call with a gradient request is idempotent: when the cost cell and
    the gradient buffer are apart from the storage of A and from the
    parameter buffer, a second call at the same X returns true and leaves
    the memory exactly as the first call left it. *)
Theorem Evaluate_gradient_idempotent this h parameters cost gradient h' :
  well_formed_gradient this h parameters cost gradient = true ->
  apart cost 1 parameters (target_size this) = true ->
  apart cost 1 (ref_data (A this)) (target_size this) = true ->
  apart gradient (target_size this) parameters (target_size this) = true ->
  apart gradient (target_size this) (ref_data (A this)) (target_size this) = true ->
  Evaluate this h parameters cost gradient = Some (true, h') ->
  Evaluate this h' parameters cost gradient = Some (true, h').
Proof.
  intros Hwf HcX HcA HgX HgA He.
  destruct (well_formed_gradient_blocks _ _ _ _ _ Hwf) as (Hwf0 & Hg & Hgb).
  destruct (well_formed_blocks _ _ _ _ Hwf0) as (xs & zs & Hx & Ha & Hc).
  destruct (Evaluate_with_gradient _ _ _ _ _ _ _ Hx Ha Hc Hg Hgb) as (h1 & Hs & He1).
  rewrite He1 in He. injection He as <-.
  pose proof (load_block_length _ _ _ _ Hx) as Lx.
  pose proof (load_block_length _ _ _ _ Ha) as La.
  assert (Ld : length (cwise fsub xs zs) = target_size this).
  { rewrite cwise_length; lia. }
  set (v := cost_of xs zs). set (d := cwise fsub xs zs) in *.
  apply apart_spec in HgX, HgA.
  assert (Hx' : load_block (<[cost := v]> h1) parameters (target_size this) = Some xs).
  { rewrite load_block_insert_apart by exact HcX. rewrite <- Hx.
    apply load_block_ext. intros k Hk.
    apply (store_block_outside _ _ _ _ _ Hs). apply outside_spec. lia. }
  assert (Ha' : load_block (<[cost := v]> h1) (ref_data (A this)) (target_size this)
                = Some zs).
  { rewrite load_block_insert_apart by exact HcA. rewrite <- Ha.
    apply load_block_ext. intros k Hk.
    apply (store_block_outside _ _ _ _ _ Hs). apply outside_spec. lia. }
  assert (Hgb' : allocated (<[cost := v]> h1) gradient (target_size this) = true).
  { apply allocated_insert_mono.
    rewrite (allocated_store_block _ _ _ _ gradient (target_size this) Hs).
    exact Hgb. }
  destruct (Evaluate_with_gradient this _ parameters cost gradient xs zs
              Hx' Ha' (allocated_insert _ _ _) Hg Hgb') as (h2 & Hs2 & He2).
  rewrite He2. do 2 f_equal. fold v. fold d in Hs2.
  apply map_eq. intros a.
  destruct (decide (a = cost)) as [->|Hne].
  - rewrite !lookup_insert_eq. reflexivity.
  - rewrite !lookup_insert_ne by congruence.
    destruct (outside a gradient (length d)) eqn:Eo.
    + rewrite (store_block_outside _ _ _ _ _ Hs2 Eo).
      rewrite lookup_insert_ne by congruence. reflexivity.
    + assert (Hin : gradient <= a < gradient + Z.of_nat (length d)).
      { destruct (Z_lt_dec a gradient) as [Hlt|Hge].
        - rewrite (proj2 (outside_spec a gradient (length d))) in Eo by lia.
          discriminate.
        - destruct (Z_le_dec (gradient + Z.of_nat (length d)) a) as [Hle|Hgt].
          + rewrite (proj2 (outside_spec a gradient (length d))) in Eo by lia.
            discriminate.
          + lia. }
      replace a with (gradient + Z.of_nat (Z.to_nat (a - gradient))) by lia.
      rewrite (store_block_inside _ _ _ _ Hs2) by lia.
      rewrite (store_block_inside _ _ _ _ Hs) by lia. reflexivity.
Qed.

End CostOfGradient.

(** The instance of X7 at the small example: the gradient written is (3, 4)
    and the cost is 2.5, half of its norm 5. *)
Lemma Evaluate_cost_is_half_norm_of_gradient_witness :
  exists h',
    Evaluate example_functor example_memory 200 300 400 = Some (true, h') /\
    h' !! 300 = Some (fmul fhalf (frobenius_norm (cell h' 400) 2)).
Proof.
  apply (Evaluate_cost_is_half_norm_of_gradient example_functor example_memory
           200 300 400); reflexivity.
Defined.

(** The instance of X8 at the small example. *)
Lemma Evaluate_gradient_idempotent_witness :
  exists h',
    Evaluate example_functor example_memory 200 300 400 = Some (true, h') /\
    Evaluate example_functor h' 200 300 400 = Some (true, h').
Proof.
  destruct (Evaluate example_functor example_memory 200 300 400)
    as [[[] h']|] eqn:E.
  - exists h'. split; [reflexivity|].
    apply (Evaluate_gradient_idempotent example_functor example_memory 200 300 400 h');
      try reflexivity. exact E.
  - vm_compute in E. discriminate E.
  - vm_compute in E. discriminate E.
Defined.

(** ** The parameter count and the cells that [Evaluate] reads *)

Lemma to_int_le_INT_MAX (z : Z) : to_int z <= INT_MAX.
Proof.
  unfold to_int, INT_MAX.
  pose proof (Z.mod_pos_bound (z + 2 ^ 31) (2 ^ 32) ltac:(lia)). lia.
Qed.

(** X9. [NumParameters] against the buffer length that [Evaluate] needs:
    when rows x cols fits in an [int], a buffer of [NumParameters()] cells
    is exactly the rows x cols cells that [Evaluate] reads; when it does
    not fit, [NumParameters()] is smaller than the number of cells read, so
    that a buffer sized by it is too short. *)
Theorem NumParameters_and_cells_read (this : MatrixDenoising) :
  0 <= ref_rows (A this) * ref_cols (A this) ->
  (ref_rows (A this) * ref_cols (A this) <= INT_MAX ->
   Z.to_nat (NumParameters this) = target_size this) /\
  (INT_MAX < ref_rows (A this) * ref_cols (A this) ->
   (Z.to_nat (NumParameters this) < target_size this)%nat).
Proof.
  intros Hp. unfold NumParameters, target_size, size_of. split.
  - intros Hs. rewrite to_int_small by (unfold INT_MAX in *; lia). reflexivity.
  - intros Hl.
    pose proof (to_int_le_INT_MAX (ref_rows (A this) * ref_cols (A this))).
    unfold INT_MAX in *. lia.
Qed.

(** The instances of X9: 2 cells for the small example, and for the
    65536 x 32768 target a count that is below the 2^31 cells read. *)
Lemma NumParameters_and_cells_read_witness :
  Z.to_nat (NumParameters example_functor) = target_size example_functor /\
  (Z.to_nat (NumParameters large_functor) < target_size large_functor)%nat.
Proof.
  split.
  - apply (NumParameters_and_cells_read example_functor); [simpl; lia|].
    unfold INT_MAX; simpl; lia.
  - apply (NumParameters_and_cells_read large_functor); [simpl; lia|].
    unfold INT_MAX; simpl; lia.
Defined.

(** ** The outputs as a function of the inputs *)

Section Outputs.
Context {F : Type} `{Scalar F}.
Implicit Types (h : gmap Z F) (l : list F) (this : MatrixDenoising).

Lemma Evaluate_gradient_outputs this h parameters cost gradient xs zs :
  well_formed_gradient this h parameters cost gradient = true ->
  outside cost gradient (target_size this) = true ->
  load_block h parameters (target_size this) = Some xs ->
  load_block h (ref_data (A this)) (target_size this) = Some zs ->
  exists h',
    Evaluate this h parameters cost gradient = Some (true, h') /\
    h' !! cost = Some (cost_of xs zs) /\
    load_block h' gradient (target_size this) = Some (cwise fsub xs zs).
Proof.
  intros Hwf Ho Hx Ha.
  destruct (well_formed_gradient_blocks _ _ _ _ _ Hwf) as (Hwf0 & Hg & Hgb).
  destruct (well_formed_blocks _ _ _ _ Hwf0) as (xs' & zs' & Hx' & Ha' & Hc).
  rewrite Hx in Hx'. rewrite Ha in Ha'. injection Hx' as <-. injection Ha' as <-.
  destruct (Evaluate_with_gradient _ _ _ _ _ _ _ Hx Ha Hc Hg Hgb) as (h1 & Hs & He).
  pose proof (load_block_length _ _ _ _ Hx) as Lx.
  pose proof (load_block_length _ _ _ _ Ha) as La.
  assert (Ld : length (cwise fsub xs zs) = target_size this).
  { rewrite cwise_length; lia. }
  eexists. split; [exact He|]. split; [apply lookup_insert_eq|].
  rewrite load_block_insert_apart.
  - rewrite <- Ld. apply (store_block_load _ _ _ _ Hs).
  - apply apart_spec. apply outside_spec in Ho. lia.
Qed.

(** X10. With a gradient request the two outputs are a function of the
    contents of A and of X alone: two well-formed calls on memories that
    hold the same A and the same X write the same cost and the same
    gradient, wherever the buffers are and whatever the cost cell and the
    gradient buffer held before. *)
Theorem Evaluate_outputs_depend_on_A_and_X_only this h h2
    parameters parameters2 cost cost2 gradient gradient2 :
  well_formed_gradient this h parameters cost gradient = true ->
  well_formed_gradient this h2 parameters2 cost2 gradient2 = true ->
  outside cost gradient (target_size this) = true ->
  outside cost2 gradient2 (target_size this) = true ->
  deref h2 (A this) = deref h (A this) ->
  Map h2 parameters2 (ref_rows (A this)) (ref_cols (A this))
  = Map h parameters (ref_rows (A this)) (ref_cols (A this)) ->
  exists h' h2',
    Evaluate this h parameters cost gradient = Some (true, h') /\
    Evaluate this h2 parameters2 cost2 gradient2 = Some (true, h2') /\
    h2' !! cost2 = h' !! cost /\
    Map h2' gradient2 (ref_rows (A this)) (ref_cols (A this))
    = Map h' gradient (ref_rows (A this)) (ref_cols (A this)).
Proof.
  intros Hwf Hwf2 Ho Ho2 HA HX.
  destruct (well_formed_gradient_blocks _ _ _ _ _ Hwf) as (Hwf0 & _ & _).
  destruct (well_formed_blocks _ _ _ _ Hwf0) as (xs & zs & Hx & Ha & _).
  destruct (well_formed_gradient_blocks _ _ _ _ _ Hwf2) as (Hwf20 & _ & _).
  destruct (well_formed_blocks _ _ _ _ Hwf20) as (xs2 & zs2 & Hx2 & Ha2 & _).
  unfold deref, Map in HA, HX. fold (target_size this) in HA, HX.
  rewrite Ha2, Ha in HA. rewrite Hx2, Hx in HX.
  injection HA as ->. injection HX as ->.
  destruct (Evaluate_gradient_outputs _ _ _ _ _ _ _ Hwf Ho Hx Ha)
    as (h' & He & Hc & Hg).
  destruct (Evaluate_gradient_outputs _ _ _ _ _ _ _ Hwf2 Ho2 Hx2 Ha2)
    as (h2' & He2 & Hc2 & Hg2).
  exists h', h2'. split; [exact He|]. split; [exact He2|]. split.
  - rewrite Hc, Hc2. reflexivity.
  - unfold Map. fold (target_size this). rewrite Hg, Hg2. reflexivity.
Qed.

End Outputs.

(** The instance of X10: the small example, and the same A and X in a
    memory whose cost cell and gradient buffer hold other values and whose
    gradient buffer is at another place. *)
Lemma Evaluate_outputs_depend_on_A_and_X_only_witness :
  exists h' h2',
    Evaluate example_functor example_memory 200 300 400 = Some (true, h') /\
    Evaluate example_functor moved_memory 200 301 500 = Some (true, h2') /\
    h2' !! 301 = h' !! 300 /\
    Map h2' 500 2 1 = Map h' 400 2 1.
Proof.
  apply (Evaluate_outputs_depend_on_A_and_X_only example_functor
           example_memory moved_memory 200 200 300 301 400 500); reflexivity.
Defined.

(** ** Homogeneity of the cost under scaling by a power of two *)

Section PowerOfTwo.
Implicit Types (x y d : double) (l xs zs : list double) (k : Z).

Lemma fexp_shift (t k : Z) :
  -1021 <= t -> -1021 <= t + k ->
  fexp 53 1024 (t + k) = fexp 53 1024 t + k.
Proof. unfold fexp, emin. lia. Qed.

Lemma shr_shift (mrs : shr_record) (e n k : Z) :
  shr mrs (e + k) n = (fst (shr mrs e n), snd (shr mrs e n) + k).
Proof. unfold shr. destruct n; cbn [fst snd]; f_equal; lia. Qed.

Lemma shr_fexp_shift (m e : Z) (lc : location) k :
  -1021 <= Zdigits2 m + e -> -1021 <= Zdigits2 m + e + k ->
  shr_fexp 53 1024 m (e + k) lc
  = (fst (shr_fexp 53 1024 m e lc), snd (shr_fexp 53 1024 m e lc) + k).
Proof.
  intros H1 H2. unfold shr_fexp.
  replace (Zdigits2 m + (e + k)) with (Zdigits2 m + e + k) by lia.
  rewrite (fexp_shift _ _ H1 H2).
  replace (fexp 53 1024 (Zdigits2 m + e) + k - (e + k))
    with (fexp 53 1024 (Zdigits2 m + e) - e) by lia.
  apply shr_shift.
Qed.

Lemma binary_round_aux_rounded (s : bool) (m e : Z) (lc : location) :
  binary_round_aux 53 1024 s m e lc
  = match shr_m (fst (shr_fexp 53 1024 (fst (rounded m e lc)) (snd (rounded m e lc))
                        loc_Exact)) with
    | Z0 => S754_zero s
    | Zpos q =>
        if snd (shr_fexp 53 1024 (fst (rounded m e lc)) (snd (rounded m e lc)) loc_Exact)
           <=? 1024 - 53
        then S754_finite s q
               (snd (shr_fexp 53 1024 (fst (rounded m e lc)) (snd (rounded m e lc))
                       loc_Exact))
        else S754_infinity s
    | Zneg _ => S754_nan
    end.
Proof.
  unfold binary_round_aux, rounded.
  destruct (shr_fexp 53 1024 m e lc) as [mrs e1]. cbn [fst snd].
  destruct (shr_fexp 53 1024 _ e1 loc_Exact) as [mrs' e2]. reflexivity.
Qed.

Lemma rounded_shift (m e : Z) (lc : location) k :
  -1021 <= Zdigits2 m + e -> -1021 <= Zdigits2 m + e + k ->
  rounded m (e + k) lc = (fst (rounded m e lc), snd (rounded m e lc) + k).
Proof.
  intros H1 H2. unfold rounded. rewrite (shr_fexp_shift _ _ _ _ H1 H2).
  reflexivity.
Qed.

(** Rounding commutes with a move of the exponent, when neither rounding
    leaves the normal range. *)
Lemma binary_round_aux_shift (s : bool) (m e : Z) (lc : location) k :
  rounds_normally m e lc = true ->
  rounds_normally m (e + k) lc = true ->
  binary_round_aux 53 1024 s m (e + k) lc
  = times_pow2 k (binary_round_aux 53 1024 s m e lc).
Proof.
  unfold rounds_normally. rewrite !andb_true_iff, !Z.leb_le.
  intros [[H1 H2] H3] [[K1 K2] K3].
  assert (K1' : -1021 <= Zdigits2 m + e + k) by lia.
  rewrite (rounded_shift _ _ _ _ H1 K1') in K2, K3. cbn [fst snd] in K2, K3.
  assert (K2' : -1021 <= Zdigits2 (fst (rounded m e lc)) + snd (rounded m e lc) + k)
    by lia.
  rewrite (shr_fexp_shift _ _ _ _ H2 K2') in K3. cbn [snd] in K3.
  rewrite !binary_round_aux_rounded.
  rewrite (rounded_shift _ _ _ _ H1 K1'). cbn [fst snd].
  rewrite (shr_fexp_shift _ _ _ _ H2 K2'). cbn [fst snd].
  destruct (shr_m (fst (shr_fexp 53 1024 (fst (rounded m e lc))
                          (snd (rounded m e lc)) loc_Exact))) as [|q|q];
    try reflexivity.
  change (1024 - 53) with 971.
  rewrite (proj2 (Z.leb_le _ _) H3), (proj2 (Z.leb_le _ _) K3). reflexivity.
Qed.

Lemma shl_align_shift (m : positive) (e e' : Z) k :
  shl_align m (e + k) (e' + k)
  = (fst (shl_align m e e'), snd (shl_align m e e') + k).
Proof.
  unfold shl_align. replace (e' + k - (e + k)) with (e' - e) by lia.
  destruct (e' - e); reflexivity.
Qed.

Lemma binary_round_shift (s : bool) (p : positive) (e : Z) k :
  normalizes_normally (Z.pos p) e = true ->
  normalizes_normally (Z.pos p) (e + k) = true ->
  binary_round 53 1024 s p (e + k) = times_pow2 k (binary_round 53 1024 s p e).
Proof.
  cbn [normalizes_normally]. rewrite !andb_true_iff, !Z.leb_le.
  intros [H1 H2] [K1 K2].
  assert (E : fexp 53 1024 (Z.pos (digits2_pos p) + (e + k))
              = fexp 53 1024 (Z.pos (digits2_pos p) + e) + k).
  { replace (Z.pos (digits2_pos p) + (e + k))
      with (Z.pos (digits2_pos p) + e + k) by lia.
    apply fexp_shift; lia. }
  rewrite E, shl_align_shift in K2. cbn [fst snd] in K2.
  unfold binary_round. rewrite E, shl_align_shift.
  destruct (shl_align p e (fexp 53 1024 (Z.pos (digits2_pos p) + e))) as [mz ez].
  cbn [fst snd] in *. apply binary_round_aux_shift; assumption.
Qed.

Lemma normalizes_normally_opp (m e : Z) :
  normalizes_normally (- m) e = normalizes_normally m e.
Proof. destruct m; reflexivity. Qed.

Lemma binary_normalize_shift (m e : Z) k :
  normalizes_normally m e = true ->
  normalizes_normally m (e + k) = true ->
  binary_normalize 53 1024 m (e + k) false
  = times_pow2 k (binary_normalize 53 1024 m e false).
Proof.
  destruct m as [|p|p]; intros H1 H2; cbn [binary_normalize].
  - reflexivity.
  - apply binary_round_shift; assumption.
  - apply binary_round_shift; assumption.
Qed.

Lemma fadd_finite (sx : bool) (mx : positive) (ex : Z)
    (sy : bool) (my : positive) (ey : Z) :
  fadd (S754_finite sx mx ex) (S754_finite sy my ey)
  = binary_normalize 53 1024
      (cond_Zopp sx (Z.pos (fst (shl_align mx ex (Z.min ex ey))))
       + cond_Zopp sy (Z.pos (fst (shl_align my ey (Z.min ex ey)))))
      (Z.min ex ey) false.
Proof. reflexivity. Qed.

Lemma fsub_times_pow2 k x y :
  sub_normally x y = true ->
  sub_normally (times_pow2 k x) (times_pow2 k y) = true ->
  fsub (times_pow2 k x) (times_pow2 k y) = times_pow2 k (fsub x y).
Proof.
  destruct x as [sx|sx| |sx mx ex], y as [sy|sy| |sy my ey];
    try discriminate;
    try (intros _ _; destruct sx, sy; reflexivity);
    try (intros _ _; destruct sx; reflexivity);
    try (intros _ _; reflexivity).
  cbn [times_pow2 sub_normally]. rewrite !fsub_finite.
  rewrite Z.add_min_distr_r, !shl_align_shift. cbn [fst].
  apply binary_normalize_shift.
Qed.

Lemma fadd_times_pow2 k x y :
  add_normally x y = true ->
  add_normally (times_pow2 k x) (times_pow2 k y) = true ->
  fadd (times_pow2 k x) (times_pow2 k y) = times_pow2 k (fadd x y).
Proof.
  destruct x as [sx|sx| |sx mx ex], y as [sy|sy| |sy my ey];
    try discriminate;
    try (intros _ _; destruct sx, sy; reflexivity);
    try (intros _ _; destruct sx; reflexivity);
    try (intros _ _; reflexivity).
  cbn [times_pow2 add_normally]. rewrite !fadd_finite.
  rewrite Z.add_min_distr_r, !shl_align_shift. cbn [fst].
  apply binary_normalize_shift.
Qed.

Lemma fmul_finite (sx : bool) (mx : positive) (ex : Z)
    (sy : bool) (my : positive) (ey : Z) :
  fmul (S754_finite sx mx ex) (S754_finite sy my ey)
  = binary_round_aux 53 1024 (xorb sx sy) (Z.pos (mx * my)) (ex + ey) loc_Exact.
Proof. reflexivity. Qed.

Lemma fmul_times_pow2 k1 k2 x y :
  mul_normally x y = true ->
  mul_normally (times_pow2 k1 x) (times_pow2 k2 y) = true ->
  fmul (times_pow2 k1 x) (times_pow2 k2 y) = times_pow2 (k1 + k2) (fmul x y).
Proof.
  destruct x as [sx|sx| |sx mx ex], y as [sy|sy| |sy my ey];
    try discriminate;
    try (intros _ _; reflexivity).
  cbn [times_pow2 mul_normally]. rewrite !fmul_finite.
  replace (ex + k1 + (ey + k2)) with (ex + ey + (k1 + k2)) by lia.
  apply binary_round_aux_shift.
Qed.

Lemma times_pow2_0 x : times_pow2 0 x = x.
Proof. destruct x; cbn [times_pow2]; rewrite ?Z.add_0_r; reflexivity. Qed.

Lemma div2_add_double (a k : Z) : Z.div2 (a + (k + k)) = Z.div2 a + k.
Proof.
  rewrite !Z.div2_div. replace (a + (k + k)) with (a + k * 2) by lia.
  apply Z.div_add. lia.
Qed.

Lemma sqrt_core_shift (m e : Z) k :
  -1021 <= Z.div2 (Zdigits2 m + e + 1) ->
  -1021 <= Z.div2 (Zdigits2 m + e + 1) + k ->
  SFsqrt_core_binary 53 1024 m (e + (k + k))
  = (fst (fst (SFsqrt_core_binary 53 1024 m e)),
     snd (fst (SFsqrt_core_binary 53 1024 m e)) + k,
     snd (SFsqrt_core_binary 53 1024 m e)).
Proof.
  intros H1 H2. unfold SFsqrt_core_binary.
  replace (Zdigits2 m + (e + (k + k)) + 1) with (Zdigits2 m + e + 1 + (k + k)) by lia.
  rewrite !div2_add_double, (fexp_shift _ _ H1 H2), Z.add_min_distr_r.
  set (e0 := Z.min (fexp 53 1024 (Z.div2 (Zdigits2 m + e + 1))) (Z.div2 e)).
  replace (e + (k + k) - 2 * (e0 + k)) with (e - 2 * e0) by lia.
  destruct (Z.sqrtrem _) as [q r]. reflexivity.
Qed.

Lemma fsqrt_times_pow2 k x :
  sqrt_normally x = true ->
  sqrt_normally (times_pow2 (k + k) x) = true ->
  fsqrt (times_pow2 (k + k) x) = times_pow2 k (fsqrt x).
Proof.
  destruct x as [s|s| |s m e]; try discriminate; try (intros _ _; reflexivity).
  destruct s; try discriminate.
  cbn [times_pow2 sqrt_normally]. rewrite !andb_true_iff, !Z.leb_le.
  intros [H1 H2] [K1 K2].
  replace (Z.pos (digits2_pos m) + (e + (k + k)) + 1)
    with (Z.pos (digits2_pos m) + e + 1 + (k + k)) in K1 by lia.
  rewrite div2_add_double in K1.
  rewrite (sqrt_core_shift (Z.pos m) e k H1 K1) in K2. cbn [fst snd] in K2.
  cbn [fsqrt binary64 SFsqrt].
  rewrite (sqrt_core_shift (Z.pos m) e k H1 K1).
  destruct (SFsqrt_core_binary 53 1024 (Z.pos m) e) as [[mz ez] lz].
  cbn [fst snd] in *. apply binary_round_aux_shift; assumption.
Qed.

Lemma digits2_pos_mul_pow52 (m : positive) :
  Z.pos (digits2_pos (4503599627370496 * m)) = Z.pos (digits2_pos m) + 52.
Proof.
  simpl (digits2_pos _). rewrite !Pos2Z.inj_succ, Pos.mul_1_l. lia.
Qed.

Lemma shr_mul_pow52 (m : positive) :
  SpecFloat.iter_pos shr_1 52
    (shr_record_of_loc (Z.pos (4503599627370496 * m)) loc_Exact)
  = Build_shr_record (Z.pos m) false false.
Proof. reflexivity. Qed.

(** Multiplying a normal number by [2^k] moves its exponent, when the
    product is normal too. *)
Lemma fmul_power_of_two (negative : bool) k x :
  scales_normally k x = true ->
  fmul (power_of_two negative k) x
  = (if negative then fopp (times_pow2 k x) else times_pow2 k x).
Proof.
  unfold scales_normally.
  destruct x as [s|s| |s m e]; try discriminate.
  - intros _. destruct negative, s; reflexivity.
  - cbn [times_pow2 normal]. rewrite !andb_true_iff, !Z.leb_le, Z.eqb_eq.
    intros [[[Hd H1] H2] [[_ K1] K2]].
    unfold power_of_two. rewrite fmul_finite.
    assert (E : binary_round_aux 53 1024 (xorb negative s)
                  (Z.pos (4503599627370496 * m)) (k - 52 + e) loc_Exact
                = S754_finite (xorb negative s) m (e + k)).
    { unfold binary_round_aux, shr_fexp. cbn [Zdigits2].
      rewrite digits2_pos_mul_pow52, Hd.
      replace (fexp 53 1024 (53 + 52 + (k - 52 + e)) - (k - 52 + e)) with 52
        by (unfold fexp, emin; lia).
      cbn [shr]. rewrite shr_mul_pow52.
      cbn [shr_m loc_of_shr_record round_nearest_even Zdigits2].
      rewrite Hd.
      replace (fexp 53 1024 (53 + (k - 52 + e + 52)) - (k - 52 + e + 52)) with 0
        by (unfold fexp, emin; lia).
      cbn [shr shr_record_of_loc shr_m].
      change (1024 - 53) with 971.
      rewrite (proj2 (Z.leb_le (k - 52 + e + 52) 971)) by lia.
      f_equal. lia. }
    rewrite E. destruct negative; reflexivity.
Qed.

Lemma cwise_fsub_times_pow2 k xs zs :
  subs_normally xs zs = true ->
  subs_normally (map (times_pow2 k) xs) (map (times_pow2 k) zs) = true ->
  cwise fsub (map (times_pow2 k) xs) (map (times_pow2 k) zs)
  = map (times_pow2 k) (cwise fsub xs zs).
Proof.
  revert zs. induction xs as [|x xs IH]; intros [|z zs]; try reflexivity.
  cbn [map subs_normally cwise]. rewrite !andb_true_iff.
  intros [H1 H2] [K1 K2].
  rewrite (fsub_times_pow2 k x z H1 K1), (IH zs H2 K2). reflexivity.
Qed.

Lemma squares_times_pow2 k (ds : list double) :
  forallb (fun d => mul_normally d d) ds = true ->
  forallb (fun d => mul_normally d d) (map (times_pow2 k) ds) = true ->
  map abs2 (map (times_pow2 k) ds) = map (times_pow2 (k + k)) (map abs2 ds).
Proof.
  induction ds as [|d ds IH]; [reflexivity|].
  cbn [map forallb]. rewrite !andb_true_iff. intros [H1 H2] [K1 K2].
  rewrite (IH H2 K2). f_equal. unfold abs2.
  apply fmul_times_pow2; assumption.
Qed.

Lemma fold_left_fadd_times_pow2 k l (a : double) :
  adds_normally a l = true ->
  adds_normally (times_pow2 k a) (map (times_pow2 k) l) = true ->
  fold_left fadd (map (times_pow2 k) l) (times_pow2 k a)
  = times_pow2 k (fold_left fadd l a).
Proof.
  revert a. induction l as [|x l IH]; intros a; [reflexivity|].
  cbn [map adds_normally fold_left]. rewrite !andb_true_iff.
  intros [H1 H2] [K1 K2].
  rewrite (fadd_times_pow2 k a x H1 K1) in K2 |- *.
  apply IH; assumption.
Qed.

Lemma sum_times_pow2 k l :
  sum_normally l = true ->
  sum_normally (map (times_pow2 k) l) = true ->
  sum (map (times_pow2 k) l) = times_pow2 k (sum l).
Proof.
  destruct l as [|x l]; [reflexivity|]. cbn [map sum_normally sum].
  apply fold_left_fadd_times_pow2.
Qed.

(** The whole computation of the cost commutes with the multiplication of
    all entries by [2^k], when neither computation leaves the normal
    range. *)
Lemma cost_of_times_pow2 k xs zs :
  cost_normally xs zs = true ->
  cost_normally (map (times_pow2 k) xs) (map (times_pow2 k) zs) = true ->
  cost_of (map (times_pow2 k) xs) (map (times_pow2 k) zs)
  = times_pow2 k (cost_of xs zs).
Proof.
  unfold cost_normally, cost_of. rewrite !andb_true_iff.
  intros [[[[H1 H2] H3] H4] H5] [[[[K1 K2] K3] K4] K5].
  rewrite (cwise_fsub_times_pow2 k xs zs H1 K1) in K2, K3, K4, K5 |- *.
  rewrite (squares_times_pow2 k _ H2 K2) in K3, K4, K5 |- *.
  rewrite (sum_times_pow2 (k + k) _ H3 K3) in K4, K5 |- *.
  rewrite (fsqrt_times_pow2 k _ H4 K4) in K5 |- *.
  exact (fmul_times_pow2 0 k fhalf _ H5 K5).
Qed.

Lemma is_finite_fopp x : is_finite (fopp x) = is_finite x.
Proof. destruct x; reflexivity. Qed.

Lemma sub_normally_opp x y : sub_normally (fopp x) (fopp y) = sub_normally x y.
Proof.
  destruct x as [sx|sx| |sx mx ex], y as [sy|sy| |sy my ey]; try reflexivity.
  cbn [fopp binary64 SFopp sub_normally]. rewrite !cond_Zopp_negb.
  set (u := cond_Zopp sx _). set (v := cond_Zopp sy _).
  replace (- u - - v) with (- (u - v)) by lia.
  apply normalizes_normally_opp.
Qed.

Lemma subs_normally_opp xs zs :
  subs_normally (map fopp xs) (map fopp zs) = subs_normally xs zs.
Proof.
  revert zs. induction xs as [|x xs IH]; intros [|z zs]; try reflexivity.
  cbn [map subs_normally]. rewrite sub_normally_opp, IH. reflexivity.
Qed.

Lemma mul_normally_fsub_opp x y :
  mul_normally (fsub (fopp x) (fopp y)) (fsub (fopp x) (fopp y))
  = mul_normally (fsub x y) (fsub x y).
Proof.
  destruct (fsub_opp_opp x y) as [-> | (s & s' & -> & ->)].
  - destruct (fsub x y); reflexivity.
  - reflexivity.
Qed.

Lemma squares_normally_opp xs zs :
  forallb (fun d => mul_normally d d) (cwise fsub (map fopp xs) (map fopp zs))
  = forallb (fun d => mul_normally d d) (cwise fsub xs zs).
Proof.
  revert zs. induction xs as [|x xs IH]; intros [|z zs]; try reflexivity.
  cbn [map cwise forallb]. rewrite mul_normally_fsub_opp, IH. reflexivity.
Qed.

Lemma cost_normally_opp xs zs :
  cost_normally (map fopp xs) (map fopp zs) = cost_normally xs zs.
Proof.
  unfold cost_normally.
  rewrite subs_normally_opp, squares_normally_opp, cwise_fsub_opp. reflexivity.
Qed.

Lemma cost_of_opp xs zs : cost_of (map fopp xs) (map fopp zs) = cost_of xs zs.
Proof. unfold cost_of. rewrite cwise_fsub_opp. reflexivity. Qed.

Lemma map_fmul_power_of_two (negative : bool) k xs :
  forallb (scales_normally k) xs = true ->
  map (fmul (power_of_two negative k)) xs
  = (if negative then map fopp (map (times_pow2 k) xs)
     else map (times_pow2 k) xs).
Proof.
  induction xs as [|x xs IH]; cbn [forallb map].
  - intros _. destruct negative; reflexivity.
  - rewrite andb_true_iff. intros [Hx Hxs].
    rewrite (fmul_power_of_two negative k x Hx), (IH Hxs).
    destruct negative; reflexivity.
Qed.

(** The cost of the matrices scaled by [c = +-2^k], against [|c|] times the
    cost. *)
Lemma cost_of_power_of_two (negative : bool) k xs zs :
  forallb (scales_normally k) xs = true ->
  forallb (scales_normally k) zs = true ->
  cost_normally xs zs = true ->
  cost_normally (map (fmul (power_of_two negative k)) xs)
    (map (fmul (power_of_two negative k)) zs) = true ->
  scales_normally k (cost_of xs zs) = true ->
  cost_of (map (fmul (power_of_two negative k)) xs)
    (map (fmul (power_of_two negative k)) zs)
  = fmul (fabs (power_of_two negative k)) (cost_of xs zs).
Proof.
  intros Hx Hz Hn Hs Hv.
  rewrite (map_fmul_power_of_two negative k xs Hx) in Hs |- *.
  rewrite (map_fmul_power_of_two negative k zs Hz) in Hs |- *.
  change (fabs (power_of_two negative k)) with (power_of_two false k).
  rewrite (fmul_power_of_two false k _ Hv).
  destruct negative.
  - rewrite cost_normally_opp in Hs. rewrite cost_of_opp.
    apply cost_of_times_pow2; assumption.
  - apply cost_of_times_pow2; assumption.
Qed.

(** C10, as amended. In binary64 the cost is absolutely homogeneous of
    degree one under scaling by a power of two: for c = 2^k or c = -2^k and
    matrices whose entries, like cost(X, A), are zero or normal and stay so
    when multiplied by 2^k, when no operation of the two computations
    underflows or overflows, [costFrobenius] gives for c X, in a memory that
    holds c A, exactly |c| times what it gives for X in a memory that holds
    A. *)
Theorem costFrobenius_homogeneous_power_of_two (this : MatrixDenoising)
    (h h' : gmap Z double) (negative : bool) k (X a : MatrixXd) (v : double) :
  -1022 <= k <= 1023 ->
  deref h (A this) = Some a ->
  deref h' (A this) = Some (scale (power_of_two negative k) a) ->
  costFrobenius this h X = Some v ->
  forallb (scales_normally k) (coeffs X) = true ->
  forallb (scales_normally k) (coeffs a) = true ->
  scales_normally k v = true ->
  cost_normally (coeffs X) (coeffs a) = true ->
  cost_normally (coeffs (scale (power_of_two negative k) X))
    (coeffs (scale (power_of_two negative k) a)) = true ->
  costFrobenius this h' (scale (power_of_two negative k) X)
  = Some (fmul (fabs (power_of_two negative k)) v).
Proof.
  intros _ Ha Hs. unfold costFrobenius. rewrite Ha, Hs.
  unfold mat_sub, scale, cmap. cbn [rows cols coeffs].
  destruct ((rows X =? rows a) && (cols X =? cols a)); [|discriminate].
  intros Hv HX HA Hn Hc Hcs.
  assert (Ev : v = cost_of (coeffs X) (coeffs a)).
  { symmetry. injection Hv as Hv. exact Hv. }
  subst v. f_equal.
  exact (cost_of_power_of_two negative k _ _ HX HA Hc Hcs Hn).
Qed.

End PowerOfTwo.

(** The instance of C10 at c = -4, X = (3, 6) and A = (0.7, 2): the
    differences are rounded, and both sides are the same double. *)
Lemma costFrobenius_homogeneous_power_of_two_witness :
  exists v : double,
    costFrobenius example_functor rounding_memory (mkMatrix 2 1 [of_Z 3; of_Z 6])
    = Some v /\
    costFrobenius example_functor scaled_memory
      (scale (power_of_two true 2) (mkMatrix 2 1 [of_Z 3; of_Z 6]))
    = Some (fmul (fabs (power_of_two true 2)) v).
Proof.
  eexists. split; [reflexivity|].
  apply (costFrobenius_homogeneous_power_of_two example_functor
           rounding_memory scaled_memory true 2
           (mkMatrix 2 1 [of_Z 3; of_Z 6])
           (mkMatrix 2 1 [seven_tenths; of_Z 2]));
    try reflexivity. lia.
Defined.
